(** * ObjectSensor.ino: ultrasonic parking sensor, shallow embedding

    The sketch drives an HC-SR04 ultrasonic module, converts the echo time
    into a distance, prints it on a 16x1 LCD and on the serial line, and
    blinks an LED when the distance is below [limit].

    Numbers are modelled as the sketch has them.  [float] is IEEE-754
    binary32.  [double] depends on the board: on the 8-bit AVR boards
    (Uno, Nano, Mega) it is the same binary32 type, on the 32-bit boards
    (Due, Zero, ...) it is binary64.  Floating-point operations are the
    round-to-nearest-even operations of [SpecFloat], the specification the
    Standard Library gives for IEEE-754 arithmetic.  [unsigned long] is a
    32-bit unsigned integer, held in [Z]. *)

From Stdlib Require Import ZArith QArith Qabs Qround Qpower Bool List String.
From Stdlib Require Import Lia Lqa.
From Stdlib Require Import Floats.SpecFloat.
Import ListNotations.

Local Open Scope Z_scope.

(** ** Floating-point formats *)

Record format := { prec : Z; emax : Z }.

Definition binary32 := {| prec := 24; emax := 128 |}.
Definition binary64 := {| prec := 53; emax := 1024 |}.

Inductive board := AVR8 | ARM32.

(** The C++ type [double] of each board. *)
Definition double_fmt (b : board) : format :=
  match b with
  | AVR8 => binary32
  | ARM32 => binary64
  end.

(** The C++ type [float] is binary32 on every board. *)
Definition float_fmt : format := binary32.

Module FP.

Definition mul (f : format) := SFmul (prec f) (emax f).
Definition div (f : format) := SFdiv (prec f) (emax f).
Definition ltb := SFltb.

(** Integer to floating-point conversion (round to nearest even). *)
Definition of_Z (f : format) (n : Z) : spec_float :=
  binary_normalize (prec f) (emax f) n 0 false.

(** Conversion of a floating-point value to the format [f]: rounding
    when [f] is narrower, exact (and put in [f]'s canonical form) when [f]
    is wider. *)
Definition cast (f : format) (x : spec_float) : spec_float :=
  match x with
  | S754_finite s m e => binary_round (prec f) (emax f) s m e
  | _ => x
  end.

(** A decimal literal [num / den] with both parts exactly representable:
    the correctly rounded quotient is the nearest value of the format. *)
Definition lit (f : format) (num den : Z) : spec_float :=
  div f (of_Z f num) (of_Z f den).

(** The exact rational value of a finite floating-point number. *)
Definition pow2 (e : Z) : Q := (2 ^ e)%Q.

Definition to_Q (x : spec_float) : Q :=
  match x with
  | S754_finite s m e =>
      ((if s then - inject_Z (Zpos m) else inject_Z (Zpos m)) * pow2 e)%Q
  | _ => 0%Q
  end.

(** Positive finite values that are well formed in the format: the
    mantissa is canonical and the exponent in range. *)
Definition is_pos (f : format) (x : spec_float) : bool :=
  match x with
  | S754_finite false m e => bounded (prec f) (emax f) m e
  | _ => false
  end.

(** Zeros and positive well-formed values: the durations and distances of
    the sketch. *)
Definition is_nonneg (f : format) (x : spec_float) : bool :=
  match x with
  | S754_zero _ => true
  | _ => is_pos f x
  end.

(** Conversion of a floating-point value to [unsigned long]: the
    fractional part is discarded; the conversion is undefined ([None])
    when the truncated value is not representable in 32 bits. *)
Definition trunc (x : spec_float) : option Z :=
  match x with
  | S754_zero _ => Some 0
  | S754_finite s m e =>
      let t := match e with
               | Z0 => Zpos m
               | Zpos p => Zpos m * Z.pow_pos 2 p
               | Zneg p => Zpos m / Z.pow_pos 2 p
               end in
      if s then (if t =? 0 then Some 0 else None)
      else if t <? 2 ^ 32 then Some t else None
  | _ => None
  end.

End FP.

(** ** Vocabulary of the rounding analysis *)

(** Position of the exact value [(m + a / b) * 2^e], [0 <= a < b], between
    the consecutive mantissas [m] and [m + 1]. *)
Definition loc_of (a b : Z) : location :=
  if a =? 0 then loc_Exact else loc_Inexact (2 * a ?= b).

(** The value a rounding returns for the mantissa [M] and exponent [E]. *)
Definition rounded (prec emax : Z) (s : bool) (M E : Z) : spec_float :=
  match M with
  | Z0 => S754_zero s
  | Zpos p => if E <=? emax - prec then S754_finite s p E else S754_infinity s
  | Zneg _ => S754_nan
  end.

(** Exact values that round to a normal number of the format without
    overflow. *)
Definition normal_range (f : format) (x : Q) : Prop :=
  (FP.pow2 (emin (prec f) (emax f) + prec f - 1) <= x /\
   x < FP.pow2 (emax f - 1))%Q.

(** [r] is a positive well-formed value of the format. *)
Definition posval (f : format) (r : spec_float) : Prop :=
  FP.is_pos f r = true.

(** [r] is a zero or a positive well-formed value of the format. *)
Definition nonneg (f : format) (r : spec_float) : Prop :=
  FP.is_nonneg f r = true.

(** [r] is a positive well-formed value of the format within one unit
    roundoff of the exact value [x]. *)
Definition approx (f : format) (r : spec_float) (x : Q) : Prop :=
  exists p E,
    r = S754_finite false p E /\
    bounded (prec f) (emax f) p E = true /\
    (Qabs (FP.to_Q r - x) <= x * FP.pow2 (- prec f))%Q.

(** Durations between 2^-32 and 2^64 microseconds: every non-zero reading
    of the echo timer lies well inside. *)
Definition in_range (T : spec_float) : Prop :=
  ((1 # 4294967296) <= FP.to_Q T <= 18446744073709551616)%Q.

(** ** Constants of the sketch *)

Definition LED : Z := 3.
Definition TRIG : Z := 9.
Definition ECHO : Z := 8.
Definition SPEED_OF_SOUND : Z := 343.

(** ** Distance conversion *)

Section Conversion.
Variable b : board.
Let D := double_fmt b.

(** [(SPEED_OF_SOUND * 0.0001)]: the int is converted to double and the
    product is taken in double. *)
Definition speed_factor : spec_float :=
  FP.mul D (FP.of_Z D SPEED_OF_SOUND) (FP.lit D 1 10000).

(** [float calculateDistanceFoot(double timeElapsed)] *)
Definition calculateDistanceFoot (timeElapsed : spec_float) : spec_float :=
  FP.cast float_fmt
    (FP.div D
       (FP.div D (FP.mul D timeElapsed speed_factor) (FP.lit D 3048 100))
       (FP.of_Z D 2)).

(** [float calculateDistanceCM(double timeElapsed)] *)
Definition calculateDistanceCM (timeElapsed : spec_float) : spec_float :=
  FP.cast float_fmt
    (FP.div D (FP.mul D timeElapsed speed_factor) (FP.of_Z D 2)).

End Conversion.

(** ** Hardware state and effects

    The functions of the Arduino core that the sketch calls
    ([digitalWrite], [delay], [pulseIn], [pinMode], the [LiquidCrystal]
    and [Serial] objects) are not part of the sketch.  They are modelled by
    what they do to the state below: each call is recorded in [trace],
    [digitalWrite] sets the output latch of its pin, and
    [void delay(unsigned long ms)] adds its argument to the time spent
    waiting. *)

Inductive level := LOW | HIGH.

Inductive pin_mode := INPUT | OUTPUT.

(** The text handed to the display, [(String)distance + "cm"]: the
    decimal text of a [double], a literal, or a concatenation. *)
Inductive text :=
| TDouble (d : spec_float)
| TLit (s : string)
| TCat (a c : text).

Definition cm_suffix : text := TLit "cm".

(** What the sketch does to the outside world, in program order. *)
Inductive event :=
| EvPinMode (pin : Z) (m : pin_mode)
| EvLcdBegin (cols rows : Z)
| EvSerialBegin (baud : Z)
| EvWrite (pin : Z) (v : level)
| EvDelay (ms : Z)
| EvPulseIn (pin : Z) (v : level) (us : Z)
| EvLcdPrint (t : text)
| EvSerialPrintln (d : spec_float)
| EvLcdClear.

(** The global [int limit], the output latch of every pin, the time spent
    so far inside [delay] (milliseconds) and the history of effects.
    [pins] and the [EvWrite] and [EvPinMode] events record the sketch's own
    [digitalWrite] and [pinMode] calls.  What the LiquidCrystal object does
    to the lines it is wired to (pins 11, 12, 4, 5, 6 and 7) inside
    [lcd.begin], [lcd.print] and [lcd.clear] is library code and is not
    modelled: those calls are single events. *)
Record state := mkState {
  limit : Z;
  pins : Z -> level;
  clock_ms : Z;
  trace : list event
}.

(** State at power-on: the initialiser of [limit] has run, every output
    latch is low. *)
Definition power_on : state :=
  {| limit := 50; pins := fun _ => LOW; clock_ms := 0; trace := [] |}.

(** What the echo line does during one measurement. *)
Inductive echo :=
| Pulse (us : Z)
| NoEcho.

(** Modelled from the spec: [pulseIn] belongs to the Arduino core, not to
    the sketch.  It returns the width of the pulse in microseconds as an
    [unsigned long], and zero when no pulse arrived within its timeout. *)
Definition pulseIn_result (r : echo) : Z :=
  match r with
  | Pulse us => us
  | NoEcho => 0
  end.

(** The readings the echo line can deliver: 32-bit unsigned values. *)
Definition echo_ok (r : echo) : Prop :=
  0 <= pulseIn_result r < 2 ^ 32.

(** Computations of the sketch: state passing; [None] is undefined
    behaviour (a floating-point value converted to an integer type that
    cannot hold it). *)
Definition M (A : Type) : Type := state -> option (A * state).

Definition ret {A} (a : A) : M A := fun s => Some (a, s).

Definition bind {A B} (m : M A) (k : A -> M B) : M B :=
  fun s => match m s with
           | Some (a, s') => k a s'
           | None => None
           end.

Definition undefined {A} : M A := fun _ => None.

Declare Scope sketch_scope.
Delimit Scope sketch_scope with sketch.
Notation "x <- m ;; k" := (bind m (fun x => k))
  (at level 61, m at next level, right associativity) : sketch_scope.
Notation "m ;; k" := (bind m (fun _ => k))
  (at level 61, right associativity) : sketch_scope.
Local Open Scope sketch_scope.

Definition emit (e : event) : M unit :=
  fun s => Some (tt, {| limit := limit s; pins := pins s;
                        clock_ms := clock_ms s; trace := trace s ++ [e] |}).

Definition set_pin (f : Z -> level) (pin : Z) (v : level) : Z -> level :=
  fun p => if p =? pin then v else f p.

Definition digitalWrite (pin : Z) (v : level) : M unit :=
  fun s => Some (tt, {| limit := limit s; pins := set_pin (pins s) pin v;
                        clock_ms := clock_ms s;
                        trace := trace s ++ [EvWrite pin v] |}).

(** [void delay(unsigned long ms)] *)
Definition delay (ms : Z) : M unit :=
  fun s => Some (tt, {| limit := limit s; pins := pins s;
                        clock_ms := clock_ms s + ms;
                        trace := trace s ++ [EvDelay ms] |}).

(** Implicit conversion of a [double] argument to [unsigned long]. *)
Definition to_ulong (d : spec_float) : M Z :=
  match FP.trunc d with
  | Some n => ret n
  | None => undefined
  end.

Definition get_limit : M Z := fun s => Some (limit s, s).

Section Sketch.
Variable b : board.
Let D := double_fmt b.

Definition setup : M unit :=
  emit (EvLcdBegin 16 1) ;;
  emit (EvPinMode TRIG OUTPUT) ;;
  emit (EvPinMode ECHO INPUT) ;;
  emit (EvSerialBegin 9600).

Definition sendTrigPulse : M unit :=
  digitalWrite TRIG LOW ;;
  delay 10 ;;
  digitalWrite TRIG HIGH ;;
  delay 10 ;;
  digitalWrite TRIG LOW.

(** [return pulseIn(ECHO, HIGH);] with the [unsigned long] converted to
    the [double] return type. *)
Definition getEchoTime (r : echo) : M spec_float :=
  emit (EvPulseIn ECHO HIGH (pulseIn_result r)) ;;
  ret (FP.of_Z D (pulseIn_result r)).

(** The [float] result of [calculateDistanceCM] is widened to the
    [double] return type. *)
Definition getDistance (r : echo) : M spec_float :=
  sendTrigPulse ;;
  echoTime <- getEchoTime r ;;
  ret (FP.cast D (calculateDistanceCM b echoTime)).

Definition lcdDisplayMessage (t : text) : M unit :=
  emit (EvLcdPrint (TCat t cm_suffix)).

Definition blinkLED (distance : spec_float) : M unit :=
  digitalWrite LED LOW ;;
  digitalWrite LED HIGH ;;
  (ms <- to_ulong distance ;; delay ms) ;;
  digitalWrite LED LOW ;;
  (ms <- to_ulong distance ;; delay ms).

Definition loop (r : echo) : M unit :=
  distance <- getDistance r ;;
  lcdDisplayMessage (TDouble distance) ;;
  emit (EvSerialPrintln distance) ;;
  lim <- get_limit ;;
  (if FP.ltb distance (FP.of_Z D lim) then blinkLED distance else ret tt) ;;
  delay 200 ;;
  emit EvLcdClear.

(** Modelled from the spec: the Arduino runtime calls [setup] once and
    then [loop] for ever; [cycles] runs [loop] once per reading of the
    echo line. *)
Fixpoint cycles (rs : list echo) : M unit :=
  match rs with
  | [] => ret tt
  | r :: rs' => loop r ;; cycles rs'
  end.

Definition sketch (rs : list echo) : M unit :=
  setup ;; cycles rs.

(** One transition of the control loop. *)
Definition step (s s' : state) : Prop :=
  exists r, echo_ok r /\ loop r s = Some (tt, s').

End Sketch.

(** Unfolds the state-passing plumbing of a computation. *)
Ltac run_sketch :=
  cbv [bind ret emit digitalWrite delay get_limit to_ulong undefined
       lcdDisplayMessage sendTrigPulse getEchoTime setup];
  cbn [limit pins clock_ms trace].

(** ** Observations on one cycle *)

Section Cycle.
Variable b : board.
Let D := double_fmt b.

(** The distance [loop] obtains from [getDistance] for a reading. *)
Definition measured (r : echo) : spec_float :=
  FP.cast D (calculateDistanceCM b (FP.of_Z D (pulseIn_result r))).

(** What [loop] does once the distance is known. *)
Definition after_measure (distance : spec_float) : M unit :=
  lcdDisplayMessage (TDouble distance) ;;
  emit (EvSerialPrintln distance) ;;
  lim <- get_limit ;;
  (if FP.ltb distance (FP.of_Z D lim) then blinkLED distance else ret tt) ;;
  delay 200 ;;
  emit EvLcdClear.

Definition trig_events : list event :=
  [EvWrite TRIG LOW; EvDelay 10; EvWrite TRIG HIGH; EvDelay 10;
   EvWrite TRIG LOW].

Definition blink_events (ms : Z) : list event :=
  [EvWrite LED LOW; EvWrite LED HIGH; EvDelay ms; EvWrite LED LOW;
   EvDelay ms].

(** The effects of one cycle whose threshold is 50, in program order. *)
Definition cycle_events (r : echo) : list event :=
  trig_events ++
  [EvPulseIn ECHO HIGH (pulseIn_result r);
   EvLcdPrint (TCat (TDouble (measured r)) cm_suffix);
   EvSerialPrintln (measured r)] ++
  (if FP.ltb (measured r) (FP.of_Z D 50)
   then blink_events (Qfloor (FP.to_Q (measured r)))
   else []) ++
  [EvDelay 200; EvLcdClear].

(** States the sketch reaches after [setup] and some cycles. *)
Definition reachable (s : state) : Prop :=
  exists rs, Forall echo_ok rs /\ sketch b rs power_on = Some (tt, s).

End Cycle.

(** The pause that follows the first [HIGH] written to [pin]. *)
Fixpoint half_period (pin : Z) (tr : list event) : option Z :=
  match tr with
  | EvWrite p HIGH :: EvDelay ms :: tr' =>
      if p =? pin then Some ms else half_period pin tr'
  | _ :: tr' => half_period pin tr'
  | [] => None
  end.

(** Whether a trace writes to [pin]. *)
Definition writes_pin (pin : Z) (tr : list event) : bool :=
  existsb (fun e => match e with
                    | EvWrite p _ => p =? pin
                    | _ => false
                    end) tr.

(** ** Observations on a trace *)

(** The values sent to the serial line, in order. *)
Definition telemetry (tr : list event) : list spec_float :=
  flat_map (fun e => match e with EvSerialPrintln d => [d] | _ => [] end) tr.

(** The texts sent to the display, in order. *)
Definition displayed (tr : list event) : list text :=
  flat_map (fun e => match e with EvLcdPrint t => [t] | _ => [] end) tr.

(** The sketch's own [digitalWrite] calls: pin and level, in order.  The
    writes the display library makes to its own lines are not among
    them. *)
Definition digitalWrite_calls (tr : list event) : list (Z * level) :=
  flat_map (fun e => match e with EvWrite p v => [(p, v)] | _ => [] end) tr.

(** The sketch's own [pinMode] calls: pin and mode, in order.  The modes
    the display library sets for its own lines are not among them. *)
Definition pinMode_calls (tr : list event) : list (Z * pin_mode) :=
  flat_map (fun e => match e with EvPinMode p m => [(p, m)] | _ => [] end) tr.

(** What the display shows after a trace, starting from [shown]:
    [lcd.print] appends, [lcd.clear] empties. *)
Fixpoint lcd_content (shown : list text) (tr : list event) : list text :=
  match tr with
  | [] => shown
  | EvLcdPrint t :: tr' => lcd_content (shown ++ [t]) tr'
  | EvLcdClear :: tr' => lcd_content [] tr'
  | _ :: tr' => lcd_content shown tr'
  end.

(** * Rounding: what the floating-point operations return

    [SpecFloat] rounds by shifting the mantissa right while recording where
    the discarded bits place the exact value ([shr]), rounding to the
    nearest even mantissa, and renormalising.  The lemmas below follow that
    path: first on integers, then on the exact rational values, and last
    for each operation the sketch uses: the result is a well-formed
    number within one unit roundoff of the exact result. *)

Local Abbreviation pow2 := FP.pow2.

(** [iter_pos] is the iteration of the Standard Library. *)
Lemma iter_pos_iter {A} (f : A -> A) p x : iter_pos f p x = Pos.iter f x p.
Proof.
  revert x; induction p as [p IH|p IH|]; intros x; simpl.
  - rewrite !IH. rewrite <- !Pos.iter_swap. reflexivity.
  - rewrite !IH. reflexivity.
  - reflexivity.
Qed.

(** The round and sticky bits of a shift record, from the position they encode. *)
Lemma loc_flags m r s a b :
  0 <= a < b ->
  loc_of_shr_record (Build_shr_record m r s) = loc_of a b ->
  r = (b <=? 2 * a) /\ orb r s = negb (a =? 0).
Proof.
  unfold loc_of; intros Hab Hl.
  destruct (Z.eqb_spec a 0) as [->|Ha].
  - destruct r, s; try discriminate. cbn [negb orb].
    destruct (Z.leb_spec b (2 * 0)); [lia|]. auto.
  - cbn [negb]. pose proof (Z.compare_spec (2 * a) b) as C. revert Hl.
    destruct (2 * a ?= b); intros Hl; inversion C;
      destruct r, s; try discriminate; (split; [|reflexivity]); symmetry.
    all: try (apply Z.leb_le; lia). all: try (apply Z.leb_gt; lia).
Qed.

Lemma loc_of_exact a b : a = 0 -> loc_of a b = loc_Exact.
Proof. intros ->. reflexivity. Qed.

Lemma loc_of_lt a b : 0 < a -> 2 * a < b -> loc_of a b = loc_Inexact Lt.
Proof.
  intros Ha Hb. unfold loc_of. destruct (Z.eqb_spec a 0); [lia|].
  f_equal. apply Z.compare_lt_iff. lia.
Qed.

Lemma loc_of_eq a b : 0 < a -> 2 * a = b -> loc_of a b = loc_Inexact Eq.
Proof.
  intros Ha Hb. unfold loc_of. destruct (Z.eqb_spec a 0); [lia|].
  f_equal. apply Z.compare_eq_iff. lia.
Qed.

Lemma loc_of_gt a b : 0 < a -> b < 2 * a -> loc_of a b = loc_Inexact Gt.
Proof.
  intros Ha Hb. unfold loc_of. destruct (Z.eqb_spec a 0); [lia|].
  f_equal. apply Z.compare_gt_iff. lia.
Qed.

(** One shift halves the mantissa and keeps track of the position of
    the exact value. *)
Lemma shr_1_spec mrs a b :
  0 <= shr_m mrs -> 0 <= a < b ->
  loc_of_shr_record mrs = loc_of a b ->
  shr_m (shr_1 mrs) = shr_m mrs / 2 /\
  loc_of_shr_record (shr_1 mrs) = loc_of ((shr_m mrs mod 2) * b + a) (2 * b).
Proof.
  destruct mrs as [m r s]; cbn [shr_m]; intros Hm Hab Hl.
  destruct (loc_flags _ _ _ _ _ Hab Hl) as [Hr Hor].
  assert (Hs : orb r s = false -> a = 0).
  { rewrite Hor. destruct (Z.eqb_spec a 0); [auto|discriminate]. }
  assert (Hs' : orb r s = true -> 0 < a).
  { rewrite Hor. destruct (Z.eqb_spec a 0); [discriminate|lia]. }
  assert (Hdm := Z.div_mod m 2 ltac:(lia)).
  assert (Hmod : 0 <= m mod 2 < 2) by (apply Z.mod_pos_bound; lia).
  assert (Hsh : shr_1 (Build_shr_record m r s) =
                Build_shr_record (m / 2) (Z.odd m) (orb r s)).
  { destruct m as [|[p|p|]|p]; try lia; cbn [shr_1]; f_equal.
    - rewrite Pos2Z.inj_xI. apply Z.div_unique with 1; lia.
    - rewrite Pos2Z.inj_xO. apply Z.div_unique with 0; lia. }
  rewrite Hsh. cbn [shr_m]. split; [reflexivity|].
  rewrite Zmod_odd. cbn [loc_of_shr_record].
  destruct (Z.odd m), (orb r s) eqn:Eo; symmetry.
  - apply loc_of_gt; specialize (Hs' eq_refl); lia.
  - apply loc_of_eq; specialize (Hs eq_refl); lia.
  - apply loc_of_lt; specialize (Hs' eq_refl); lia.
  - apply loc_of_exact; specialize (Hs eq_refl); lia.
Qed.

(** [p] shifts divide the mantissa by [2 ^ p]. *)
Lemma shr_iter_spec p : forall mrs a b,
  0 <= shr_m mrs -> 0 <= a < b ->
  loc_of_shr_record mrs = loc_of a b ->
  shr_m (Pos.iter shr_1 mrs p) = shr_m mrs / 2 ^ Zpos p /\
  loc_of_shr_record (Pos.iter shr_1 mrs p) =
    loc_of ((shr_m mrs mod 2 ^ Zpos p) * b + a) (2 ^ Zpos p * b).
Proof.
  induction p as [|p IH] using Pos.peano_ind; intros mrs a b Hm Hab Hl.
  - simpl Pos.iter. change (2 ^ 1) with 2. apply shr_1_spec; assumption.
  - rewrite Pos.iter_succ.
    destruct (IH mrs a b Hm Hab Hl) as [IHm IHl].
    set (q := 2 ^ Zpos p) in *.
    assert (Hq : 0 < q) by (apply Z.pow_pos_nonneg; lia).
    assert (Hmod : 0 <= shr_m mrs mod q < q) by (apply Z.mod_pos_bound; lia).
    assert (Hdiv : 0 <= shr_m mrs / q) by (apply Z.div_pos; lia).
    assert (Hdm := Z.div_mod (shr_m mrs) q ltac:(lia)).
    destruct (shr_1_spec (Pos.iter shr_1 mrs p) (shr_m mrs mod q * b + a) (q * b)) as [Sm Sl].
    + rewrite IHm. assumption.
    + split; [nia|]. nia.
    + assumption.
    + rewrite Pos2Z.inj_succ, Z.pow_succ_r by lia. fold q.
      rewrite Sm, Sl, IHm.
      assert (Hdm2 := Z.div_mod (shr_m mrs / q) 2 ltac:(lia)).
      assert (Hmod2 : 0 <= (shr_m mrs / q) mod 2 < 2) by (apply Z.mod_pos_bound; lia).
      assert (E1 : shr_m mrs / (2 * q) = shr_m mrs / q / 2).
      { rewrite (Z.mul_comm 2 q). rewrite Z.div_div by lia. reflexivity. }
      assert (E2 : shr_m mrs mod (2 * q) = ((shr_m mrs / q) mod 2) * q + shr_m mrs mod q).
      { symmetry. apply Z.mod_unique with (shr_m mrs / q / 2); nia. }
      split; [symmetry; exact E1|].
      rewrite E2. f_equal; ring.
Qed.

Lemma digits2_pos_size p : digits2_pos p = Pos.size p.
Proof. induction p; simpl; congruence. Qed.

(** [Zdigits2] is the number of binary digits. *)
Lemma Zdigits2_bounds m :
  0 < m -> 2 ^ (Zdigits2 m - 1) <= m < 2 ^ Zdigits2 m.
Proof.
  destruct m as [|p|p]; try lia; intros _. cbn [Zdigits2].
  rewrite digits2_pos_size.
  pose proof (Pos.size_gt p) as G. pose proof (Pos.size_le p) as L.
  apply Pos2Z.pos_lt_pos in G. apply Pos2Z.pos_le_pos in L.
  rewrite Pos2Z.inj_pow in G, L.
  assert (Hp : Z.pos p~0 = 2 * Z.pos p) by reflexivity.
  replace (Z.pos (Pos.size p)) with (Z.succ (Z.pos (Pos.size p) - 1)) in L at 1 by lia.
  rewrite Z.pow_succ_r in L by lia. lia.
Qed.

Lemma Zdigits2_nonneg m : 0 <= Zdigits2 m.
Proof. destruct m; cbn; lia. Qed.

Lemma Zdigits2_pos m : 0 < m -> 0 < Zdigits2 m.
Proof. destruct m; cbn; lia. Qed.

Lemma Zdigits2_unique m d :
  0 < m -> 2 ^ (d - 1) <= m < 2 ^ d -> Zdigits2 m = d.
Proof.
  intros Hm [L U].
  destruct (Zdigits2_bounds m Hm) as [L' U'].
  pose proof (Zdigits2_pos m Hm).
  assert (0 < d).
  { destruct (Z.ltb_spec 0 d); auto. exfalso.
    destruct (Z.eq_dec d 0) as [->|];
      [change (2 ^ 0) with 1 in U; lia | rewrite Z.pow_neg_r in U by lia; lia]. }
  destruct (Z.lt_trichotomy (Zdigits2 m) d) as [C|[C|C]]; auto; exfalso.
  - assert (2 ^ Zdigits2 m <= 2 ^ (d - 1)) by (apply Z.pow_le_mono_r; lia). lia.
  - assert (2 ^ d <= 2 ^ (Zdigits2 m - 1)) by (apply Z.pow_le_mono_r; lia). lia.
Qed.

Lemma Zdigits2_le_pow m d : 0 <= d -> 0 <= m < 2 ^ d -> Zdigits2 m <= d.
Proof.
  intros Hd [L U]. destruct (Z.eq_dec m 0) as [->|N]; [cbn; lia|].
  destruct (Zdigits2_bounds m ltac:(lia)) as [L' U'].
  destruct (Z.le_gt_cases (Zdigits2 m) d); auto.
  assert (2 ^ d <= 2 ^ (Zdigits2 m - 1)) by (apply Z.pow_le_mono_r; lia). lia.
Qed.

Lemma Zdigits2_ge_pow m d : 0 < d -> 2 ^ (d - 1) <= m -> d <= Zdigits2 m.
Proof.
  intros Hd L.
  assert (0 < 2 ^ (d - 1)) by (apply Z.pow_pos_nonneg; lia).
  destruct (Zdigits2_bounds m ltac:(lia)) as [L' U'].
  destruct (Z.le_gt_cases d (Zdigits2 m)); auto.
  assert (2 ^ Zdigits2 m <= 2 ^ (d - 1)) by (apply Z.pow_le_mono_r; [lia|]; pose proof (Zdigits2_nonneg m); lia). lia.
Qed.

Lemma Zdigits2_mono m n : 0 <= m <= n -> Zdigits2 m <= Zdigits2 n.
Proof.
  intros [L U]. destruct (Z.eq_dec m 0) as [->|N]; [apply Zdigits2_nonneg|].
  apply Zdigits2_ge_pow. { apply Zdigits2_pos; lia. }
  destruct (Zdigits2_bounds m ltac:(lia)). lia.
Qed.

(** Digits lost by a right shift. *)
Lemma Zdigits2_shift m n :
  0 <= m -> 0 <= n -> Zdigits2 (m / 2 ^ n) = Z.max (Zdigits2 m - n) 0.
Proof.
  intros Hm Hn.
  assert (P : 0 < 2 ^ n) by (apply Z.pow_pos_nonneg; lia).
  destruct (Z.eq_dec m 0) as [->|N].
  { rewrite Z.div_0_l by lia. cbn. lia. }
  destruct (Zdigits2_bounds m ltac:(lia)) as [L U].
  pose proof (Zdigits2_pos m ltac:(lia)) as Dp.
  destruct (Z.le_gt_cases (Zdigits2 m) n) as [C|C].
  - rewrite Z.div_small. { cbn. lia. }
    split; [lia|]. assert (2 ^ Zdigits2 m <= 2 ^ n) by (apply Z.pow_le_mono_r; lia). lia.
  - rewrite Z.max_l by lia.
    assert (E1 : 2 ^ (Zdigits2 m - 1) = 2 ^ (Zdigits2 m - n - 1) * 2 ^ n).
    { rewrite <- Z.pow_add_r by lia. f_equal. lia. }
    assert (E2 : 2 ^ Zdigits2 m = 2 ^ (Zdigits2 m - n) * 2 ^ n).
    { rewrite <- Z.pow_add_r by lia. f_equal. lia. }
    assert (0 < 2 ^ (Zdigits2 m - n - 1)) by (apply Z.pow_pos_nonneg; lia).
    apply Zdigits2_unique.
    + apply Z.div_str_pos. split; [lia|]. nia.
    + split.
      * apply Z.div_le_lower_bound; [lia|]. rewrite Z.mul_comm. lia.
      * apply Z.div_lt_upper_bound; [lia|]. rewrite Z.mul_comm. lia.
Qed.

(** Rounding to nearest even moves the mantissa by at most one and the
    value by at most half a unit. *)
Lemma rne_spec m a b :
  0 <= a < b ->
  let M := round_nearest_even m (loc_of a b) in
  (M = m \/ M = m + 1) /\
  2 * Z.abs (M * b - (m * b + a)) <= b /\
  (a = 0 -> M = m).
Proof.
  intros Hab M. unfold M, loc_of.
  destruct (Z.eqb_spec a 0) as [->|Ha]; cbn [round_nearest_even].
  { split; [auto|]. split; [|auto]. rewrite Z.add_0_r, Z.sub_diag. cbn. lia. }
  pose proof (Z.compare_spec (2 * a) b) as C.
  destruct (2 * a ?= b); inversion C.
  - destruct (Z.even m); (split; [auto|]); (split; [|lia]); nia.
  - split; [auto|]. split; [|lia]. nia.
  - split; [auto|]. split; [|lia]. nia.
Qed.

Section Round.
Variables prec emax : Z.
Hypothesis Hprec : 0 < prec.

Local Abbreviation fexp := (SpecFloat.fexp prec emax).
Local Abbreviation emin := (SpecFloat.emin prec emax).

Lemma fexp_mono x y : x <= y -> fexp x <= fexp y.
Proof. unfold SpecFloat.fexp. lia. Qed.

Lemma fexp_succ x : fexp (x + 1) <= fexp x + 1.
Proof. unfold SpecFloat.fexp. lia. Qed.

Lemma fexp_ge_emin x : emin <= fexp x.
Proof. unfold SpecFloat.fexp. lia. Qed.

(** [shr] by [n >= 0] places. *)
Lemma shr_spec m e n a b :
  0 <= m -> 0 <= a < b -> 0 <= n ->
  exists mrs,
    shr (shr_record_of_loc m (loc_of a b)) e n = (mrs, e + n) /\
    shr_m mrs = m / 2 ^ n /\
    loc_of_shr_record mrs = loc_of ((m mod 2 ^ n) * b + a) (2 ^ n * b).
Proof.
  intros Hm Hab Hn.
  assert (R : forall l, loc_of_shr_record (shr_record_of_loc m l) = l)
    by (intros [|[]]; reflexivity).
  assert (Rm : forall l, shr_m (shr_record_of_loc m l) = m)
    by (intros [|[]]; reflexivity).
  destruct n as [|p|p]; try lia.
  - eexists. cbn [shr]. split; [rewrite Z.add_0_r; reflexivity|].
    rewrite Rm, R. change (2 ^ 0) with 1.
    rewrite Z.div_1_r, Z.mod_1_r. split; [reflexivity|]. f_equal; ring.
  - eexists. cbn [shr]. split; [reflexivity|].
    rewrite iter_pos_iter.
    destruct (shr_iter_spec p (shr_record_of_loc m (loc_of a b)) a b) as [Sm Sl].
    + rewrite Rm; assumption.
    + assumption.
    + apply R.
    + rewrite Rm in Sm, Sl. auto.
Qed.

(** The rounding of [(m + a / b) * 2^e]: the result is [M * 2^E] in
    canonical form, within half a unit in the last place of the exact
    value, and exact when nothing is discarded. *)
Lemma binary_round_aux_spec s m e a b :
  0 <= m -> 0 <= a < b -> e <= fexp (Zdigits2 m + e) ->
  exists M E,
    binary_round_aux prec emax s m e (loc_of a b) = rounded prec emax s M E /\
    0 <= M /\
    fexp (Zdigits2 m + e) <= E <= fexp (Zdigits2 m + e) + 1 /\
    2 * Z.abs (M * 2 ^ (E - e) * b - (m * b + a))
      <= 2 ^ (fexp (Zdigits2 m + e) - e) * b /\
    ((m mod 2 ^ (fexp (Zdigits2 m + e) - e) = 0 /\ a = 0) ->
     M * 2 ^ (E - e) * b = m * b + a) /\
    (0 < M -> fexp (Zdigits2 M + E) = E).
Proof.
  intros Hm Hab He.
  set (d := Zdigits2 m) in *. set (E1 := fexp (d + e)) in *.
  set (n1 := E1 - e).
  assert (Hn1 : 0 <= n1) by (unfold n1; lia).
  assert (P1 : 0 < 2 ^ n1) by (apply Z.pow_pos_nonneg; lia).
  unfold binary_round_aux, shr_fexp. fold d. fold E1. fold n1.
  destruct (shr_spec m e n1 a b Hm Hab Hn1) as (mrs1 & S1 & Sm1 & Sl1).
  rewrite S1.
  set (m1 := m / 2 ^ n1) in *.
  set (a1 := (m mod 2 ^ n1) * b + a) in *.
  set (b1 := 2 ^ n1 * b) in *.
  assert (Hmod : 0 <= m mod 2 ^ n1 < 2 ^ n1) by (apply Z.mod_pos_bound; lia).
  assert (Hdm := Z.div_mod m (2 ^ n1) ltac:(lia)). fold m1 in Hdm.
  assert (Hm1 : 0 <= m1) by (apply Z.div_pos; lia).
  assert (Hab1 : 0 <= a1 < b1) by (unfold a1, b1; nia).
  assert (HN : m1 * b1 + a1 = m * b + a) by (unfold a1, b1; nia).
  rewrite Sm1, Sl1.
  destruct (rne_spec m1 a1 b1 Hab1) as (HM' & Herr & Hex).
  set (M' := round_nearest_even m1 (loc_of a1 b1)) in *.
  assert (HM'0 : 0 <= M') by lia.
  (* digits after the first shift *)
  assert (Hd1 : Zdigits2 m1 = Z.max (d - n1) 0).
  { unfold m1. apply Zdigits2_shift; lia. }
  assert (Hd0 : 0 <= d) by apply Zdigits2_nonneg.
  assert (HE1 : emin <= E1) by apply fexp_ge_emin.
  set (dM := Zdigits2 M').
  assert (HdM : Zdigits2 m1 <= dM <= Zdigits2 m1 + 1).
  { unfold dM. split; [apply Zdigits2_mono; lia|].
    destruct HM' as [->| ->]; [lia|].
    destruct (Z.eq_dec m1 0) as [Hz|Hnz]; [rewrite Hz; cbn; lia|].
    destruct (Zdigits2_bounds m1 ltac:(lia)) as [_ U].
    apply Zdigits2_le_pow; [pose proof (Zdigits2_nonneg m1); lia|].
    rewrite Z.pow_add_r by (pose proof (Zdigits2_nonneg m1); lia).
    change (2 ^ 1) with 2. lia. }
  assert (Hlow : e + n1 <= fexp (dM + (e + n1)) \/ M' = 0).
  { destruct (Z.eq_dec M' 0) as [?|NZ]; [auto|left].
    replace (e + n1) with E1 by (unfold n1; lia).
    destruct (Z.le_gt_cases n1 d) as [C|C].
    - unfold E1 at 1. apply fexp_mono. lia.
    - assert (E1 = emin) by (unfold E1, SpecFloat.fexp, n1 in *; lia).
      pose proof (fexp_ge_emin (dM + E1)). lia. }
  assert (Hup : fexp (dM + (e + n1)) <= e + n1 + 1).
  { replace (e + n1) with E1 by (unfold n1; lia).
    assert (fexp (Zdigits2 m1 + E1) <= E1).
    { rewrite Hd1. destruct (Z.le_gt_cases n1 d) as [C|C].
      - rewrite Z.max_l by lia.
        replace (d - n1 + E1) with (d + e) by (unfold n1; lia). apply Z.le_refl.
      - rewrite Z.max_r by lia. unfold SpecFloat.fexp. lia. }
    pose proof (fexp_mono (dM + E1) (Zdigits2 m1 + 1 + E1) ltac:(lia)).
    pose proof (fexp_succ (Zdigits2 m1 + E1)).
    replace (Zdigits2 m1 + 1 + E1) with (Zdigits2 m1 + E1 + 1) in * by lia. lia. }
  assert (HupEq : fexp (dM + (e + n1)) = e + n1 + 1 -> exists k, 0 < k /\ M' = 2 ^ k /\ dM = k + 1).
  { intros Eq. replace (e + n1) with E1 in Eq by (unfold n1; lia).
    assert (F1 : fexp (Zdigits2 m1 + E1) <= E1).
    { rewrite Hd1. destruct (Z.le_gt_cases n1 d) as [C|C].
      - rewrite Z.max_l by lia.
        replace (d - n1 + E1) with (d + e) by (unfold n1; lia). apply Z.le_refl.
      - rewrite Z.max_r by lia. unfold SpecFloat.fexp. lia. }
    assert (dM = Zdigits2 m1 + 1).
    { destruct (Z.eq_dec dM (Zdigits2 m1)) as [Q|Q]; [rewrite Q in Eq; lia|lia]. }
    assert (M' = m1 + 1).
    { destruct HM' as [Q|Q]; [|exact Q]. unfold dM in *. rewrite Q in *. lia. }
    assert (0 < m1).
    { destruct (Z.eq_dec m1 0) as [Hz|Hnz]; [|lia]. exfalso.
      rewrite Hz in *. cbn in H. unfold SpecFloat.fexp in Eq. lia. }
    exists (Zdigits2 m1). split; [apply Zdigits2_pos; lia|]. split; [|lia].
    destruct (Zdigits2_bounds m1 ltac:(lia)) as [L U].
    destruct (Z.eq_dec (m1 + 1) (2 ^ Zdigits2 m1)) as [Q|Q]; [lia|exfalso].
    assert (Zdigits2 (m1 + 1) <= Zdigits2 m1).
    { apply Zdigits2_le_pow; [apply Zdigits2_nonneg|lia]. }
    unfold dM in *. rewrite H0 in *. lia. }
  fold dM.
  set (n2 := fexp (dM + (e + n1)) - (e + n1)).
  destruct (Z.eq_dec n2 1) as [N2|N2].
  - (* the rounded mantissa overflowed into one more digit *)
    destruct (HupEq ltac:(unfold n2 in N2; lia)) as (k & Hk & HMk & HdMk).
    destruct (shr_spec M' (e + n1) n2 0 1 HM'0 ltac:(lia) ltac:(lia)) as (mrs2 & S2 & Sm2 & _).
    change (loc_of 0 1) with loc_Exact in S2. rewrite S2, Sm2.
    rewrite N2. change (2 ^ 1) with 2.
    exists (M' / 2), (e + n1 + 1).
    assert (Hk2 : M' = 2 * 2 ^ (k - 1)).
    { rewrite HMk. replace k with (Z.succ (k - 1)) at 1 by lia.
      apply Z.pow_succ_r. lia. }
    assert (Hdiv2 : M' / 2 = 2 ^ (k - 1)).
    { rewrite Hk2 at 1. rewrite Z.mul_comm. apply Z.div_mul. lia. }
    assert (Hhalf : M' = 2 * (M' / 2)) by lia.
    assert (Hpos2 : 0 < M' / 2).
    { assert (0 < M') by (rewrite HMk; apply Z.pow_pos_nonneg; lia). lia. }
    split; [unfold rounded; destruct (M' / 2); try lia; reflexivity|].
    split; [lia|].
    replace (e + n1 + 1 - e) with (n1 + 1) by lia.
    rewrite Z.pow_add_r by lia. change (2 ^ 1) with 2.
    replace (M' / 2 * (2 ^ n1 * 2) * b) with (M' * b1) by (unfold b1; nia).
    rewrite <- HN.
    split; [unfold n1; lia|].
    split; [fold n1; fold b1; lia|].
    split.
    { intros [Hz Ha]. fold n1 in Hz. rewrite Hex; [unfold a1; nia|]. unfold a1. nia. }
    intros _. 
    assert (Zdigits2 (M' / 2) = dM - 1).
    { replace (M' / 2) with (M' / 2 ^ 1) by reflexivity.
      rewrite Zdigits2_shift by lia. fold dM. lia. }
    rewrite H. replace (dM - 1 + (e + n1 + 1)) with (dM + (e + n1)) by lia.
    unfold n2 in N2. lia.
  - assert (N2' : n2 <= 0) by (unfold n2; lia).
    assert (S2 : shr (shr_record_of_loc M' loc_Exact) (e + n1) n2 =
                 (shr_record_of_loc M' loc_Exact, e + n1)).
    { destruct n2; try lia; reflexivity. }
    rewrite S2. cbn [shr_record_of_loc shr_m].
    exists M', (e + n1).
    split; [unfold rounded; destruct M'; try lia; reflexivity|].
    split; [lia|].
    replace (e + n1 - e) with n1 by lia.
    replace (M' * 2 ^ n1 * b) with (M' * b1) by (unfold b1; nia).
    rewrite <- HN.
    split; [unfold n1; lia|].
    split; [fold n1; fold b1; lia|].
    split.
    { intros [Hz Ha]. fold n1 in Hz. rewrite Hex; [unfold a1; nia|]. unfold a1. nia. }
    intros HMpos. destruct Hlow as [Hl|Hl]; [|lia]. fold dM. unfold n2 in N2'. lia.
Qed.

End Round.


Lemma pow2_pos e : (0 < pow2 e)%Q.
Proof. apply Qpower_0_lt. reflexivity. Qed.

Lemma pow2_add a b : (pow2 (a + b) == pow2 a * pow2 b)%Q.
Proof. apply Qpower_plus. discriminate. Qed.

Lemma pow2_inject n : 0 <= n -> (inject_Z (2 ^ n) == pow2 n)%Q.
Proof. intros H. apply Zpower_Qpower. exact H. Qed.

Lemma pow2_le a b : a <= b -> (pow2 a <= pow2 b)%Q.
Proof. intros H. apply Qpower_le_compat_l; [exact H|discriminate]. Qed.

Lemma pow2_lt_inv a b : (pow2 a < pow2 b)%Q -> a < b.
Proof. intros H. apply Qpower_lt_compat_l_inv with (q := 2%Q); [exact H|reflexivity]. Qed.

Lemma pow2_opp a : (pow2 a * pow2 (- a) == 1)%Q.
Proof. rewrite <- pow2_add. rewrite Z.add_opp_diag_r. reflexivity. Qed.

Lemma Qabs_inject_Z z : Qabs (inject_Z z) = inject_Z (Z.abs z).
Proof. reflexivity. Qed.

Section RoundQ.
Variables prec emax : Z.
Hypothesis Hprec : 0 < prec.

Local Abbreviation fexp := (SpecFloat.fexp prec emax).
Local Abbreviation emin := (SpecFloat.emin prec emax).

(** In the normal range the result is finite, well formed and within a
    relative error of [2 ^ - prec] of the exact value [x]. *)
Lemma binary_round_aux_Q s m e a b (x : Q) :
  0 < m -> 0 <= a < b -> e <= fexp (Zdigits2 m + e) ->
  (x * inject_Z b == inject_Z (m * b + a) * pow2 e)%Q ->
  (pow2 (emin + prec - 1) <= x)%Q -> (x < pow2 (emax - 1))%Q ->
  exists p E,
    binary_round_aux prec emax s m e (loc_of a b) = S754_finite s p E /\
    bounded prec emax p E = true /\
    (Qabs (inject_Z (Zpos p) * pow2 E - x) <= x * pow2 (- prec))%Q.
Proof.
  intros Hm Hab He Hx Hlo Hhi.
  destruct (binary_round_aux_spec prec emax Hprec s m e a b ltac:(lia) Hab He)
    as (M & E & Hr & HM0 & HE & Herr & _ & Hcan).
  set (d := Zdigits2 m) in *. set (N := m * b + a) in *.
  destruct (Zdigits2_bounds m Hm) as [DL DU]. fold d in DL, DU.
  assert (Hd : 0 < d) by (apply Zdigits2_pos; assumption).
  assert (HB : (0 < inject_Z b)%Q) by (change (inject_Z 0 < inject_Z b)%Q; rewrite <- Zlt_Qlt; lia).
  assert (HPe := pow2_pos e).
  (* magnitude of x *)
  assert (Hxlo : (pow2 (d - 1 + e) <= x)%Q).
  { apply Qmult_le_r with (z := inject_Z b); [exact HB|]. rewrite Hx.
    setoid_replace (pow2 (d - 1 + e) * inject_Z b)%Q
      with (inject_Z (2 ^ (d - 1) * b) * pow2 e)%Q
      by (rewrite inject_Z_mult, (pow2_inject (d - 1)), pow2_add by lia; ring).
    apply Qmult_le_compat_r; [|apply Qlt_le_weak; exact HPe].
    rewrite <- Zle_Qle. unfold N. nia. }
  assert (Hxhi : (x < pow2 (d + e))%Q).
  { apply Qmult_lt_r with (z := inject_Z b); [exact HB|]. rewrite Hx.
    setoid_replace (pow2 (d + e) * inject_Z b)%Q
      with (inject_Z (2 ^ d * b) * pow2 e)%Q
      by (rewrite inject_Z_mult, (pow2_inject d), pow2_add by lia; ring).
    apply Qmult_lt_compat_r; [exact HPe|].
    rewrite <- Zlt_Qlt. unfold N. nia. }
  assert (Hnorm : emin + prec <= d + e).
  { assert (emin + prec - 1 < d + e); [|lia].
    apply pow2_lt_inv. eapply Qle_lt_trans; eassumption. }
  assert (Hfin : d + e <= emax - 1).
  { assert (d - 1 + e < emax - 1); [|lia].
    apply pow2_lt_inv. eapply Qle_lt_trans; eassumption. }
  assert (HE1 : fexp (d + e) = d + e - prec) by (unfold SpecFloat.fexp; lia).
  rewrite HE1 in *.
  set (n1 := d + e - prec - e) in *.
  assert (Hn1 : 0 <= n1) by (unfold n1; lia).
  assert (Hpw : 2 ^ n1 * 2 ^ (prec - 1) = 2 ^ (d - 1)).
  { rewrite <- Z.pow_add_r by lia. f_equal. unfold n1. lia. }
  assert (P1 : 0 < 2 ^ n1) by (apply Z.pow_pos_nonneg; lia).
  assert (P2 : 0 < 2 ^ (prec - 1)) by (apply Z.pow_pos_nonneg; lia).
  assert (Hpp : 2 ^ prec = 2 * 2 ^ (prec - 1)).
  { replace prec with (Z.succ (prec - 1)) at 1 by lia. apply Z.pow_succ_r. lia. }
  set (K := E - e) in *.
  assert (HK : 0 <= K) by (unfold K; lia).
  assert (PK : 0 < 2 ^ K) by (apply Z.pow_pos_nonneg; lia).
  assert (Hrel : Z.abs (M * 2 ^ K * b - N) * 2 ^ prec <= N).
  { rewrite Hpp. assert (2 ^ n1 * b * 2 ^ (prec - 1) <= N); [|nia].
    replace (2 ^ n1 * b * 2 ^ (prec - 1)) with (2 ^ (d - 1) * b) by (rewrite <- Hpw; ring).
    unfold N. nia. }
  assert (HN : 0 < N) by (unfold N; nia).
  assert (HMpos : 0 < M).
  { destruct (Z.eq_dec M 0) as [HZ|NZ]; [|lia]. exfalso.
    subst M. replace (0 * 2 ^ K * b - N) with (- N) in Hrel by ring.
    rewrite Z.abs_opp, Z.abs_eq in Hrel by lia. nia. }
  destruct M as [|p|p]; try lia.
  exists p, E. unfold rounded in Hr.
  assert (Ele : (E <=? emax - prec) = true) by (apply Z.leb_le; lia).
  rewrite Ele in Hr. split; [exact Hr|].
  split.
  { unfold bounded, canonical_mantissa. rewrite Ele, andb_true_r.
    apply Z.eqb_eq. apply (Hcan HMpos). }
  (* the error, scaled by b * 2^prec / 2^e *)
  assert (HpE : (pow2 E == inject_Z (2 ^ K) * pow2 e)%Q).
  { rewrite (pow2_inject K) by lia. rewrite <- pow2_add. unfold K.
    replace (E - e + e) with E by lia. reflexivity. }
  assert (Hdiff : ((inject_Z (Z.pos p) * pow2 E - x) * inject_Z b ==
                   inject_Z (Z.pos p * 2 ^ K * b - N) * pow2 e)%Q).
  { rewrite HpE. unfold Zminus. rewrite inject_Z_plus, inject_Z_opp, !inject_Z_mult.
    fold N in Hx. setoid_replace ((inject_Z (Z.pos p) * (inject_Z (2 ^ K) * pow2 e) - x) * inject_Z b)%Q
      with (inject_Z (Z.pos p) * inject_Z (2 ^ K) * inject_Z b * pow2 e - x * inject_Z b)%Q by ring.
    rewrite Hx. ring. }
  assert (HP : (0 < pow2 prec)%Q) by apply pow2_pos.
  assert (Hu : (pow2 (- prec) * pow2 prec == 1)%Q).
  { rewrite Qmult_comm. apply pow2_opp. }
  apply Qmult_le_r with (z := (inject_Z b * pow2 prec)%Q).
  { apply Qmult_lt_0_compat; assumption. }
  setoid_replace (x * pow2 (- prec) * (inject_Z b * pow2 prec))%Q
    with (x * inject_Z b * (pow2 (- prec) * pow2 prec))%Q by ring.
  rewrite Hu, Qmult_1_r, Hx.
  rewrite <- (Qabs_pos (inject_Z b * pow2 prec)) by (apply Qlt_le_weak, Qmult_lt_0_compat; assumption).
  rewrite <- Qabs_Qmult.
  setoid_replace ((inject_Z (Z.pos p) * pow2 E - x) * (inject_Z b * pow2 prec))%Q
    with ((inject_Z (Z.pos p) * pow2 E - x) * inject_Z b * pow2 prec)%Q by ring.
  rewrite Hdiff.
  rewrite <- (pow2_inject prec) by lia.
  setoid_replace (inject_Z (Z.pos p * 2 ^ K * b - N) * pow2 e * inject_Z (2 ^ prec))%Q
    with (inject_Z ((Z.pos p * 2 ^ K * b - N) * 2 ^ prec) * pow2 e)%Q
    by (rewrite inject_Z_mult; ring).
  rewrite Qabs_Qmult. rewrite (Qabs_pos (pow2 e)) by (apply Qlt_le_weak; exact HPe).
  apply Qmult_le_compat_r; [|apply Qlt_le_weak; exact HPe].
  rewrite Qabs_inject_Z. rewrite <- Zle_Qle. rewrite Z.abs_mul.
  rewrite (Z.abs_eq (2 ^ prec)) by lia. exact Hrel.
Qed.

End RoundQ.

(** The position [SFdiv] computes from a remainder. *)
Lemma new_location_loc_of b a :
  0 < b -> 0 <= a < b -> new_location b a = loc_of a b.
Proof.
  intros Hb Ha. unfold new_location, new_location_even, new_location_odd, loc_of.
  destruct (Z.even b) eqn:Ev; destruct (Z.eqb_spec a 0) as [->|Na]; try reflexivity.
  f_equal.
  assert (Hodd : Z.odd b = true) by (rewrite <- Z.negb_even, Ev; reflexivity).
  apply Z.odd_spec in Hodd. destruct Hodd as [k Hk].
  pose proof (Z.compare_spec (2 * a + 1) b) as C1.
  pose proof (Z.compare_spec (2 * a) b) as C2.
  destruct (2 * a + 1 ?= b); inversion C1; destruct (2 * a ?= b); inversion C2;
    try reflexivity; lia.
Qed.

Lemma iter_xO p d : Zpos (Pos.iter xO p d) = Zpos p * 2 ^ Zpos d.
Proof.
  induction d as [|d IH] using Pos.peano_ind.
  - cbn [Pos.iter]. rewrite Pos2Z.inj_xO. change (2 ^ 1) with 2. lia.
  - rewrite Pos.iter_succ, Pos2Z.inj_xO, IH, Pos2Z.inj_succ, Z.pow_succ_r by lia. ring.
Qed.

Lemma Zdigits2_shl m k : 0 < m -> 0 <= k -> Zdigits2 (m * 2 ^ k) = Zdigits2 m + k.
Proof.
  intros Hm Hk.
  destruct (Zdigits2_bounds m Hm) as [L U].
  pose proof (Zdigits2_pos m Hm) as P.
  assert (Pk : 0 < 2 ^ k) by (apply Z.pow_pos_nonneg; lia).
  apply Zdigits2_unique; [nia|].
  replace (Zdigits2 m + k - 1) with (Zdigits2 m - 1 + k) by lia.
  rewrite !Z.pow_add_r by lia. nia.
Qed.

Lemma shl_align_spec mx ex ex' :
  let '(mz, ez) := shl_align mx ex ex' in
  ez = Z.min ex ex' /\ Zpos mz = Zpos mx * 2 ^ (ex - ez).
Proof.
  unfold shl_align. destruct (ex' - ex) as [|d|d] eqn:E.
  - split; [lia|]. replace (ex - ex) with 0 by lia. cbn. lia.
  - split; [lia|]. replace (ex - ex) with 0 by lia. cbn. lia.
  - split; [lia|]. rewrite iter_xO. f_equal. f_equal. lia.
Qed.

Section Ops.
Variable f : format.
Hypothesis Hprec : 0 < prec f.
Hypothesis Hemax : prec f < emax f.

Local Abbreviation fexp := (SpecFloat.fexp (prec f) (emax f)).
Local Abbreviation emin := (SpecFloat.emin (prec f) (emax f)).

Lemma posval_inv r :
  posval f r ->
  exists p E, r = S754_finite false p E /\ bounded (prec f) (emax f) p E = true.
Proof.
  unfold posval. destruct r as [| | |[] p E]; try discriminate.
  intros B. exists p, E. auto.
Qed.

Lemma approx_posval r x : approx f r x -> posval f r.
Proof. intros (p & E & -> & B & _). exact B. Qed.

Lemma bounded_canonical p e :
  bounded (prec f) (emax f) p e = true ->
  fexp (Zdigits2 (Zpos p) + e) = e /\ e <= emax f - prec f.
Proof.
  unfold bounded, canonical_mantissa. intros H.
  apply andb_true_iff in H. destruct H as [H1 H2].
  apply Z.eqb_eq in H1. apply Z.leb_le in H2. auto.
Qed.

Lemma round_aux_approx m e a b (x : Q) :
  0 < m -> 0 <= a < b -> e <= fexp (Zdigits2 m + e) ->
  (x * inject_Z b == inject_Z (m * b + a) * pow2 e)%Q ->
  normal_range f x ->
  approx f (binary_round_aux (prec f) (emax f) false m e (loc_of a b)) x.
Proof.
  intros Hm Hab He Hx [Hlo Hhi].
  destruct (binary_round_aux_Q (prec f) (emax f) Hprec false m e a b x Hm Hab He Hx Hlo Hhi)
    as (p & E & Hr & Hb & Herr).
  exists p, E. rewrite Hr. auto.
Qed.

(** Product of two positive well-formed values. *)
Lemma mul_approx x y :
  posval f x -> posval f y ->
  normal_range f (FP.to_Q x * FP.to_Q y) ->
  approx f (FP.mul f x y) (FP.to_Q x * FP.to_Q y).
Proof.
  intros Vx Vy Hn.
  destruct (posval_inv _ Vx) as (mx & ex & -> & Bx).
  destruct (posval_inv _ Vy) as (my & ey & -> & By).
  destruct (bounded_canonical _ _ Bx) as [Cx _].
  destruct (bounded_canonical _ _ By) as [Cy _].
  unfold FP.mul. cbn [SFmul xorb].
  change loc_Exact with (loc_of 0 1).
  apply round_aux_approx; try lia.
  - (* the product has enough digits *)
    destruct (Zdigits2_bounds (Zpos mx) ltac:(lia)) as [Lx _].
    destruct (Zdigits2_bounds (Zpos my) ltac:(lia)) as [Ly _].
    pose proof (Zdigits2_pos (Zpos mx) ltac:(lia)) as Px.
    pose proof (Zdigits2_pos (Zpos my) ltac:(lia)) as Py.
    set (dx := Zdigits2 (Zpos mx)) in *. set (dy := Zdigits2 (Zpos my)) in *.
    assert (Hd : dx + dy - 1 <= Zdigits2 (Zpos (mx * my))).
    { apply Zdigits2_ge_pow; [lia|]. rewrite Pos2Z.inj_mul.
      replace (dx + dy - 1 - 1) with ((dx - 1) + (dy - 1)) by lia.
      rewrite Z.pow_add_r by lia.
      assert (0 < 2 ^ (dx - 1)) by (apply Z.pow_pos_nonneg; lia).
      assert (0 < 2 ^ (dy - 1)) by (apply Z.pow_pos_nonneg; lia). nia. }
    unfold SpecFloat.fexp, SpecFloat.emin in *. lia.
  - cbn [FP.to_Q]. rewrite Pos2Z.inj_mul, Z.mul_1_r, Z.add_0_r, inject_Z_mult.
    unfold pow2. rewrite (Qpower_plus 2 ex ey) by discriminate.
    change (inject_Z 1) with 1%Q. ring.
  - exact Hn.
Qed.

(** The quotient and remainder that [SFdiv] hands to the rounding. *)
Lemma div_core_spec mx ex my ey :
  exists q r e',
    SFdiv_core_binary (prec f) (emax f) (Zpos mx) ex (Zpos my) ey
      = (q, e', loc_of r (Zpos my)) /\
    0 <= q /\ 0 <= r < Zpos my /\
    e' <= ex - ey /\
    q * Zpos my + r = Zpos mx * 2 ^ (ex - ey - e') /\
    (e' <= emin \/ 2 ^ (prec f - 1) <= q).
Proof.
  unfold SFdiv_core_binary.
  set (dx := Zdigits2 (Zpos mx)). set (dy := Zdigits2 (Zpos my)).
  set (e' := Z.min (fexp (dx + ex - (dy + ey))) (ex - ey)).
  set (s := ex - ey - e').
  assert (Hs : 0 <= s) by (unfold s, e'; lia).
  set (m' := match s with Z.pos _ => Z.shiftl (Zpos mx) s | Z0 => Zpos mx | Z.neg _ => 0 end).
  assert (Hm' : m' = Zpos mx * 2 ^ s).
  { unfold m'. clearbody s. destruct s; try lia.
    apply Z.shiftl_mul_pow2. lia. }
  assert (Ps : 0 < 2 ^ s) by (apply Z.pow_pos_nonneg; lia).
  pose proof (Z_div_mod m' (Zpos my) ltac:(lia)) as DM.
  destruct (Z.div_eucl m' (Zpos my)) as [q r]. destruct DM as [DM Hr].
  rewrite new_location_loc_of by lia.
  assert (Hq : 0 <= q) by nia.
  exists q, r, e'. split; [reflexivity|]. split; [exact Hq|]. split; [exact Hr|].
  split; [unfold e'; lia|]. split; [fold s; lia|].
  destruct (Z.le_gt_cases e' emin) as [C|C]; [left; exact C|right].
  assert (Hs' : prec f - dx + dy <= s).
  { unfold s, e', SpecFloat.fexp in *. lia. }
  destruct (Zdigits2_bounds (Zpos mx) ltac:(lia)) as [Lx _]. fold dx in Lx.
  destruct (Zdigits2_bounds (Zpos my) ltac:(lia)) as [_ Uy]. fold dy in Uy.
  pose proof (Zdigits2_pos (Zpos mx) ltac:(lia)) as Px. fold dx in Px.
  pose proof (Zdigits2_pos (Zpos my) ltac:(lia)) as Py. fold dy in Py.
  assert (P1 : 0 < 2 ^ (prec f - 1)) by (apply Z.pow_pos_nonneg; lia).
  assert (G : 2 ^ (prec f - 1) * 2 ^ dy <= 2 ^ (dx - 1) * 2 ^ s).
  { rewrite <- !Z.pow_add_r by lia. apply Z.pow_le_mono_r; lia. }
  replace q with (m' / Zpos my) by (symmetry; apply Z.div_unique with r; lia).
  apply Z.div_le_lower_bound; [lia|]. rewrite Hm'. nia.
Qed.

Lemma div_core_aligned q e' :
  0 <= q -> (e' <= emin \/ 2 ^ (prec f - 1) <= q) ->
  e' <= fexp (Zdigits2 q + e').
Proof.
  intros Hq [C|C].
  - pose proof (fexp_ge_emin (prec f) (emax f) (Zdigits2 q + e')). lia.
  - assert (prec f <= Zdigits2 q) by (apply Zdigits2_ge_pow; lia).
    unfold SpecFloat.fexp. lia.
Qed.

(** Quotient of two positive values. *)
Lemma div_approx mx ex my ey :
  let x := S754_finite false mx ex in
  let y := S754_finite false my ey in
  normal_range f (FP.to_Q x / FP.to_Q y) ->
  approx f (FP.div f x y) (FP.to_Q x / FP.to_Q y).
Proof.
  intros x y Hn. unfold x, y, FP.div. cbn [SFdiv xorb].
  destruct (div_core_spec mx ex my ey) as (q & r & e' & -> & Hq & Hr & He' & DM & HK).
  set (s := ex - ey - e') in *.
  assert (Hs : 0 <= s) by (unfold s; lia).
  assert (Hval : (FP.to_Q x / FP.to_Q y * inject_Z (Zpos my) ==
                  inject_Z (q * Zpos my + r) * pow2 e')%Q).
  { unfold x, y. cbn [FP.to_Q]. rewrite DM.
    rewrite inject_Z_mult, (pow2_inject s) by lia.
    assert (E : (pow2 ex == pow2 s * pow2 e' * pow2 ey)%Q).
    { rewrite <- !pow2_add. unfold s. replace (ex - ey - e' + e' + ey) with ex by lia. reflexivity. }
    rewrite E. field. split.
    - pose proof (pow2_pos ey). lra.
    - intro A. assert (0 < inject_Z (Zpos my))%Q by (change (inject_Z 0 < inject_Z (Zpos my))%Q; rewrite <- Zlt_Qlt; lia). lra. }
  destruct Hn as [Hlo Hhi].
  assert (Hqpos : 0 < q).
  { destruct HK as [C|C].
    - destruct (Z.eq_dec q 0) as [Q0|]; [|lia]. exfalso. subst q.
      assert (HY : (0 < inject_Z (Zpos my))%Q)
        by (change (inject_Z 0 < inject_Z (Zpos my))%Q; rewrite <- Zlt_Qlt; lia).
      assert (Hlt : (FP.to_Q x / FP.to_Q y < pow2 e')%Q).
      { apply Qmult_lt_r with (z := inject_Z (Zpos my)); [exact HY|].
        rewrite Hval. rewrite (Qmult_comm (pow2 e')).
        apply Qmult_lt_compat_r; [apply pow2_pos|]. rewrite <- Zlt_Qlt. lia. }
      assert (Hle : (pow2 e' <= pow2 (emin + prec f - 1))%Q) by (apply pow2_le; lia).
      lra.
    - assert (0 < 2 ^ (prec f - 1)) by (apply Z.pow_pos_nonneg; lia). lia. }
  apply round_aux_approx; try lia; try assumption; [|split; assumption].
  apply div_core_aligned; assumption.
Qed.

(** Whatever the operands, a quotient is a well-formed value. *)
Lemma rounded_valid s M E :
  (0 < M -> fexp (Zdigits2 M + E) = E) ->
  valid_binary (prec f) (emax f) (rounded (prec f) (emax f) s M E) = true.
Proof.
  intros H. unfold rounded. destruct M as [|p|p]; try reflexivity.
  destruct (Z.leb_spec E (emax f - prec f)) as [L|L]; [|reflexivity].
  cbn [valid_binary]. unfold bounded, canonical_mantissa.
  apply andb_true_iff. split; [apply Z.eqb_eq; apply H; lia|apply Z.leb_le; exact L].
Qed.

Lemma div_valid x y : valid_binary (prec f) (emax f) (FP.div f x y) = true.
Proof.
  unfold FP.div.
  destruct x as [sx|sx| |sx mx ex], y as [sy|sy| |sy my ey]; try reflexivity.
  cbn [SFdiv].
  destruct (div_core_spec mx ex my ey) as (q & r & e' & -> & Hq & Hr & _ & _ & HK).
  destruct (binary_round_aux_spec (prec f) (emax f) Hprec (xorb sx sy) q e' r (Zpos my)
              Hq Hr (div_core_aligned q e' Hq HK))
    as (M & E & -> & _ & _ & _ & _ & Hcan).
  apply rounded_valid. exact Hcan.
Qed.

(** Converting a well-formed value to its own format changes nothing. *)
Lemma cast_valid x : valid_binary (prec f) (emax f) x = true -> FP.cast f x = x.
Proof.
  destruct x as [s|s| |s m e]; try reflexivity.
  cbn [valid_binary]. unfold bounded, canonical_mantissa. intros H.
  apply andb_true_iff in H. destruct H as [H1 H2]. apply Z.eqb_eq in H1.
  unfold FP.cast, binary_round, shl_align. rewrite H1, Z.sub_diag.
  unfold binary_round_aux, shr_fexp. cbn [Zdigits2]. rewrite H1, Z.sub_diag.
  cbn [shr shr_record_of_loc shr_m loc_of_shr_record round_nearest_even Zdigits2].
  rewrite H1, Z.sub_diag. cbn [shr shr_m]. rewrite H2. reflexivity.
Qed.

Lemma binary_round_aligned mx ex :
  exists mz ez,
    shl_align mx ex (fexp (Zpos (digits2_pos mx) + ex)) = (mz, ez) /\
    ez <= fexp (Zdigits2 (Zpos mz) + ez) /\
    fexp (Zdigits2 (Zpos mz) + ez) = fexp (Zdigits2 (Zpos mx) + ex) /\
    ez = Z.min ex (fexp (Zdigits2 (Zpos mx) + ex)) /\
    (inject_Z (Zpos mz) * pow2 ez == inject_Z (Zpos mx) * pow2 ex)%Q.
Proof.
  pose proof (shl_align_spec mx ex (fexp (Zpos (digits2_pos mx) + ex))) as S.
  destruct (shl_align mx ex (fexp (Zpos (digits2_pos mx) + ex))) as [mz ez].
  destruct S as [Ez Mz]. exists mz, ez. split; [reflexivity|].
  change (Zpos (digits2_pos mx)) with (Zdigits2 (Zpos mx)) in *.
  assert (Hk : 0 <= ex - ez) by lia.
  assert (Hd : Zdigits2 (Zpos mz) + ez = Zdigits2 (Zpos mx) + ex).
  { rewrite Mz, Zdigits2_shl by lia. lia. }
  rewrite Hd. split; [lia|]. split; [reflexivity|]. split; [exact Ez|].
  rewrite Mz, inject_Z_mult, (pow2_inject (ex - ez)) by lia.
  rewrite <- Qmult_assoc, <- pow2_add. replace (ex - ez + ez) with ex by lia. reflexivity.
Qed.

(** Conversion of a positive value to the format. *)
Lemma cast_approx mx ex :
  let x := S754_finite false mx ex in
  normal_range f (FP.to_Q x) ->
  approx f (FP.cast f x) (FP.to_Q x).
Proof.
  intros x Hn. unfold x, FP.cast, binary_round.
  destruct (binary_round_aligned mx ex) as (mz & ez & -> & Hz & _ & _ & Hv).
  change loc_Exact with (loc_of 0 1).
  apply round_aux_approx; try lia; try assumption.
  cbn [FP.to_Q]. rewrite Z.mul_1_r, Z.add_0_r.
  change (inject_Z 1) with 1%Q. rewrite Qmult_1_r. symmetry. exact Hv.
Qed.

(** Conversion of a positive integer to the format. *)
Lemma of_Z_approx n :
  0 < n -> normal_range f (inject_Z n) ->
  approx f (FP.of_Z f n) (inject_Z n).
Proof.
  intros Hn Hr. destruct n as [|p|p]; try lia.
  unfold FP.of_Z, binary_normalize.
  assert (E : (FP.to_Q (S754_finite false p 0) == inject_Z (Zpos p))%Q).
  { cbn [FP.to_Q]. change (pow2 0) with 1%Q. ring. }
  pose proof (cast_approx p 0) as C. cbn zeta in C.
  unfold FP.cast in C. unfold approx in *.
  destruct C as (q & E' & Hq & Hb & Herr).
  { unfold normal_range in *. rewrite E. exact Hr. }
  exists q, E'. split; [exact Hq|]. split; [exact Hb|].
  rewrite Hq in *. rewrite <- E. exact Herr.
Qed.

(** A value that is representable is converted exactly. *)
Lemma cast_exact mx ex :
  let x := S754_finite false mx ex in
  fexp (Zdigits2 (Zpos mx) + ex) <= ex ->
  Zdigits2 (Zpos mx) + ex <= emax f - 1 ->
  posval f (FP.cast f x) /\ (FP.to_Q (FP.cast f x) == FP.to_Q x)%Q.
Proof.
  intros x Hrep Hfin. unfold x, FP.cast, binary_round.
  destruct (binary_round_aligned mx ex) as (mz & ez & -> & Hz & Hfe & Hmin & Hv).
  destruct (binary_round_aux_spec (prec f) (emax f) Hprec false (Zpos mz) ez 0 1
              ltac:(lia) ltac:(lia) Hz)
    as (M & E & Hr & HM0 & HE & _ & Hex & Hcan).
  change (loc_of 0 1) with loc_Exact in Hr. rewrite Hr.
  assert (Hez : fexp (Zdigits2 (Zpos mz) + ez) = ez) by lia.
  rewrite Hez in *. rewrite Z.sub_diag in Hex. change (2 ^ 0) with 1 in Hex.
  specialize (Hex (conj (Z.mod_1_r _) eq_refl)).
  rewrite Z.mul_1_r, Z.mul_1_r, Z.add_0_r in Hex.
  assert (PK : 0 < 2 ^ (E - ez)) by (apply Z.pow_pos_nonneg; lia).
  assert (HMpos : 0 < M) by nia.
  destruct M as [|p|p]; try lia. unfold rounded.
  assert (Ele : (E <=? emax f - prec f) = true).
  { apply Z.leb_le. rewrite Hfe in Hez. unfold SpecFloat.fexp, SpecFloat.emin in *. lia. }
  rewrite Ele. split.
  - unfold posval. cbn [FP.is_pos]. unfold bounded, canonical_mantissa.
    rewrite Ele, andb_true_r. apply Z.eqb_eq. apply Hcan. lia.
  - cbn [FP.to_Q]. rewrite <- Hv. rewrite <- Hex.
    rewrite inject_Z_mult, (pow2_inject (E - ez)) by lia.
    rewrite <- Qmult_assoc, <- pow2_add. replace (E - ez + ez) with E by lia. reflexivity.
Qed.

Lemma of_Z_exact n :
  0 < n < 2 ^ prec f ->
  posval f (FP.of_Z f n) /\ (FP.to_Q (FP.of_Z f n) == inject_Z n)%Q.
Proof.
  intros Hn. destruct n as [|p|p]; try lia.
  unfold FP.of_Z, binary_normalize.
  pose proof (cast_exact p 0) as C. cbn zeta in C. unfold FP.cast in C.
  assert (Hd : Zdigits2 (Zpos p) <= prec f).
  { apply Zdigits2_le_pow; lia. }
  destruct C as [C1 C2].
  - unfold SpecFloat.fexp, SpecFloat.emin. lia.
  - lia.
  - split; [exact C1|]. rewrite C2. cbn [FP.to_Q]. change (pow2 0) with 1%Q. ring.
Qed.

(** Order of well-formed positive values. *)
Lemma ltb_spec x y :
  posval f x -> posval f y ->
  (FP.ltb x y = true <-> (FP.to_Q x < FP.to_Q y)%Q).
Proof.
  intros Vx Vy.
  destruct (posval_inv _ Vx) as (mx & ex & -> & Bx).
  destruct (posval_inv _ Vy) as (my & ey & -> & By).
  destruct (bounded_canonical _ _ Bx) as [Cx _].
  destruct (bounded_canonical _ _ By) as [Cy _].
  destruct (Zdigits2_bounds (Zpos mx) ltac:(lia)) as [Lx Ux].
  destruct (Zdigits2_bounds (Zpos my) ltac:(lia)) as [Ly Uy].
  set (dx := Zdigits2 (Zpos mx)) in *. set (dy := Zdigits2 (Zpos my)) in *.
  assert (Hdx : dx <= prec f) by (unfold SpecFloat.fexp in Cx; lia).
  assert (Hdy : dy <= prec f) by (unfold SpecFloat.fexp in Cy; lia).
  assert (Px : 0 < dx) by (apply Zdigits2_pos; lia).
  assert (Py : 0 < dy) by (apply Zdigits2_pos; lia).
  assert (Pp : 2 ^ prec f = 2 * 2 ^ (prec f - 1)).
  { replace (prec f) with (Z.succ (prec f - 1)) at 1 by lia. apply Z.pow_succ_r. lia. }
  assert (Ux' : Zpos mx < 2 ^ prec f).
  { assert (2 ^ dx <= 2 ^ prec f) by (apply Z.pow_le_mono_r; lia). lia. }
  assert (Uy' : Zpos my < 2 ^ prec f).
  { assert (2 ^ dy <= 2 ^ prec f) by (apply Z.pow_le_mono_r; lia). lia. }
  (* rational comparison as integer comparison *)
  assert (Key : forall m1 e1 m2 e2 : Z, e1 <= e2 ->
            ((inject_Z m1 * pow2 e1 < inject_Z m2 * pow2 e2)%Q <-> m1 < m2 * 2 ^ (e2 - e1))).
  { intros m1 e1 m2 e2 He.
    assert (Ep : (pow2 e2 == inject_Z (2 ^ (e2 - e1)) * pow2 e1)%Q).
    { rewrite (pow2_inject (e2 - e1)) by lia. rewrite <- pow2_add.
      replace (e2 - e1 + e1) with e2 by lia. reflexivity. }
    rewrite Ep, Qmult_assoc, <- inject_Z_mult.
    rewrite Qmult_lt_r by apply pow2_pos. rewrite <- Zlt_Qlt. reflexivity. }
  unfold FP.ltb, SFltb, SFcompare. cbn [FP.to_Q].
  pose proof (Z.compare_spec ex ey) as C.
  destruct (ex ?= ey); inversion C as [Heq|Hlt|Hgt].
  - subst ey. rewrite Pos.compare_cont_spec. cbn [Pos.switch_Eq].
    rewrite (Key (Zpos mx) ex (Zpos my) ex) by lia.
    rewrite Z.sub_diag. change (2 ^ 0) with 1. rewrite Z.mul_1_r.
    pose proof (Pos.compare_spec mx my) as C'.
    destruct (mx ?= my)%positive; inversion C'; split; intros; try discriminate; try reflexivity; lia.
  - rewrite (Key (Zpos mx) ex (Zpos my) ey) by lia.
    split; [intros _|reflexivity].
    assert (Hd : dy = prec f) by (unfold SpecFloat.fexp in *; lia).
    assert (2 <= 2 ^ (ey - ex)).
    { change 2 with (2 ^ 1) at 1. apply Z.pow_le_mono_r; lia. }
    rewrite Hd in Ly. nia.
  - split; [discriminate|]. intros H. exfalso.
    assert (H' : ~ (inject_Z (Zpos my) * pow2 ey < inject_Z (Zpos mx) * pow2 ex)%Q) by lra.
    apply H'. rewrite (Key (Zpos my) ey (Zpos mx) ex) by lia.
    assert (Hd : dx = prec f) by (unfold SpecFloat.fexp in *; lia).
    assert (2 <= 2 ^ (ex - ey)).
    { change 2 with (2 ^ 1) at 1. apply Z.pow_le_mono_r; lia. }
    rewrite Hd in Lx. nia.
Qed.

End Ops.

(** Truncation is the floor of the exact value. *)
Lemma trunc_floor m e :
  let x := S754_finite false m e in
  Qfloor (FP.to_Q x) < 2 ^ 32 ->
  FP.trunc x = Some (Qfloor (FP.to_Q x)).
Proof.
  intros x. unfold x. cbn [FP.to_Q FP.trunc].
  assert (E : Qfloor (inject_Z (Zpos m) * pow2 e) =
              match e with
              | 0 => Zpos m
              | Zpos p => Zpos m * Z.pow_pos 2 p
              | Zneg p => Zpos m / Z.pow_pos 2 p
              end).
  { destruct e as [|p|p].
    - change (pow2 0) with 1%Q. rewrite Qmult_1_r. apply Qfloor_Z.
    - change (Z.pow_pos 2 p) with (2 ^ Zpos p).
      rewrite <- (pow2_inject (Zpos p)) by lia. rewrite <- inject_Z_mult. apply Qfloor_Z.
    - change (Z.pow_pos 2 p) with (2 ^ Zpos p). rewrite Zdiv_Qdiv.
      apply Qfloor_comp. rewrite (pow2_inject (Zpos p)) by lia.
      unfold Qdiv. apply Qmult_comp; [reflexivity|].
      change (Zneg p) with (- Zpos p). unfold pow2. rewrite Qpower_opp. reflexivity. }
  rewrite E. intros H.
  destruct (Z.ltb_spec (match e with
              | 0 => Zpos m
              | Zpos p => Zpos m * Z.pow_pos 2 p
              | Zneg p => Zpos m / Z.pow_pos 2 p
              end) (2 ^ 32)); [reflexivity|lia].
Qed.

Section Chain.
Variable f : format.
Hypothesis Hp : 24 <= prec f.
Hypothesis He : 128 <= emax f.
Hypothesis Hpe : prec f < emax f.

Lemma wide_prec_pos : 0 < prec f.
Proof. lia. Qed.

(** In a format at least as wide as binary32 the unit roundoff is at
    most [2 ^ -24] and the normal range contains that of binary32. *)
Lemma unit_roundoff_bound :
  (0 < pow2 (- prec f) /\ pow2 (- prec f) <= 1 # 16777216)%Q.
Proof.
  split; [apply pow2_pos|].
  change (1 # 16777216)%Q with (pow2 (- 24)). apply pow2_le. lia.
Qed.

Lemma normal_range_intro x :
  ((1 # 85070591730234615865843651857942052864) <= x)%Q ->
  (x < 170141183460469231731687303715884105728)%Q ->
  normal_range f x.
Proof.
  intros L U. split.
  - eapply Qle_trans; [|exact L].
    change (1 # 85070591730234615865843651857942052864)%Q with (pow2 (- 126)).
    apply pow2_le. unfold emin. lia.
  - eapply Qlt_le_trans; [exact U|].
    change (170141183460469231731687303715884105728)%Q with (pow2 127).
    apply pow2_le. lia.
Qed.

Lemma approx_bounds r x :
  approx f r x ->
  (x - x * (1 # 16777216) <= FP.to_Q r <= x + x * (1 # 16777216))%Q.
Proof.
  intros (p & E & _ & _ & Herr).
  apply Qabs_Qle_condition in Herr.
  destruct unit_roundoff_bound as [U0 U1].
  assert (0 <= x)%Q.
  { destruct Herr as [A B]. 
    destruct (Qlt_le_dec x 0) as [C|C]; [|exact C]. exfalso.
    assert (x * pow2 (- prec f) < 0)%Q.
    { rewrite Qmult_comm. setoid_replace 0%Q with (pow2 (- prec f) * 0)%Q by ring.
      apply Qmult_lt_l; assumption. }
    lra. }
  assert (x * pow2 (- prec f) <= x * (1 # 16777216))%Q.
  { rewrite !(Qmult_comm x). apply Qmult_le_compat_r; assumption. }
  lra.
Qed.

Variables c two l : spec_float.
Hypothesis Hc : posval f c.
Hypothesis Hcv :
  ((343 # 10000) - (343 # 10000) * (1 # 33554432) <= FP.to_Q c
   <= (343 # 10000) + (343 # 10000) * (1 # 33554432))%Q.
Hypothesis Htwo : exists m e, two = S754_finite false m e.
Hypothesis Htwov : (FP.to_Q two == 2)%Q.
Hypothesis Hl : exists m e, l = S754_finite false m e.
Hypothesis Hlv :
  ((3048 # 100) - (3048 # 100) * (1 # 33554432) <= FP.to_Q l
   <= (3048 # 100) + (3048 # 100) * (1 # 33554432))%Q.

Lemma div_approx' x y :
  posval f x -> (exists m e, y = S754_finite false m e) ->
  normal_range f (FP.to_Q x / FP.to_Q y) ->
  approx f (FP.div f x y) (FP.to_Q x / FP.to_Q y).
Proof.
  intros Px (my & ey & ->).
  destruct (posval_inv f _ Px) as (mx & ex & -> & _).
  apply div_approx; try assumption; apply wide_prec_pos.
Qed.

Lemma cast_approx32 x :
  posval f x -> normal_range float_fmt (FP.to_Q x) ->
  approx float_fmt (FP.cast float_fmt x) (FP.to_Q x).
Proof.
  intros Px. destruct (posval_inv f _ Px) as (mx & ex & -> & _).
  apply cast_approx. reflexivity.
Qed.

Lemma approx32_bounds r x :
  approx float_fmt r x ->
  (x - x * (1 # 16777216) <= FP.to_Q r <= x + x * (1 # 16777216))%Q.
Proof.
  intros (p & E & _ & _ & Herr).
  apply Qabs_Qle_condition in Herr.
  change (pow2 (- prec float_fmt)) with (1 # 16777216)%Q in Herr. lra.
Qed.

Lemma normal_range32_intro x :
  ((1 # 85070591730234615865843651857942052864) <= x)%Q ->
  (x < 170141183460469231731687303715884105728)%Q ->
  normal_range float_fmt x.
Proof. intros L U. split; [exact L|exact U]. Qed.

Lemma scaled_factor T :
  ((1 # 4294967296) <= FP.to_Q T)%Q ->
  (FP.to_Q T * ((343 # 10000) - (343 # 10000) * (1 # 33554432))
     <= FP.to_Q T * FP.to_Q c
   /\ FP.to_Q T * FP.to_Q c
     <= FP.to_Q T * ((343 # 10000) + (343 # 10000) * (1 # 33554432)))%Q.
Proof.
  intros Tl. destruct Hcv as [L U].
  assert (0 < FP.to_Q T)%Q by lra.
  split; apply Qmult_le_l; assumption.
Qed.

(** [(T * c) / 2] converted to [float], for a factor [c] within [2 ^ -25]
    of 0.0343. *)
Lemma cm_chain T :
  posval f T -> in_range T ->
  let r := FP.cast float_fmt (FP.div f (FP.mul f T c) two) in
  posval float_fmt r /\
  (Qabs (FP.to_Q r - FP.to_Q T * (343 # 20000))
     <= FP.to_Q T * (343 # 20000) * (1 # 4194304))%Q.
Proof.
  intros HT [Tl Tu] r.
  destruct (scaled_factor T Tl) as [K1 K2].
  set (t := FP.to_Q T) in *. set (x1 := (t * FP.to_Q c)%Q) in *.
  assert (A1 : approx f (FP.mul f T c) x1).
  { apply mul_approx; try assumption; [apply wide_prec_pos|].
    apply normal_range_intro; fold t; fold x1; lra. }
  pose proof (approx_bounds _ _ A1) as B1.
  set (v1 := FP.to_Q (FP.mul f T c)) in *.
  assert (D2 : (v1 / FP.to_Q two == v1 * (1 # 2))%Q).
  { rewrite Htwov. field. }
  assert (A2 : approx f (FP.div f (FP.mul f T c) two) (v1 / FP.to_Q two)).
  { apply div_approx'; [eapply approx_posval; exact A1|exact Htwo|].
    apply normal_range_intro; fold v1; rewrite D2; lra. }
  pose proof (approx_bounds _ _ A2) as B2. rewrite D2 in B2.
  set (v2 := FP.to_Q (FP.div f (FP.mul f T c) two)) in *.
  assert (A3 : approx float_fmt r v2).
  { apply cast_approx32; [eapply approx_posval; exact A2|].
    apply normal_range32_intro; fold v2; lra. }
  pose proof (approx32_bounds _ _ A3) as B3.
  split; [eapply approx_posval; exact A3|].
  apply Qabs_Qle_condition. set (v3 := FP.to_Q r) in *.
  split; lra.
Qed.

Lemma div_by_l v :
  (0 <= v)%Q ->
  (v * ((100 # 3048) - (100 # 3048) * (1 # 16777216)) <= v / FP.to_Q l
   /\ v / FP.to_Q l <= v * ((100 # 3048) + (100 # 3048) * (1 # 16777216)))%Q.
Proof.
  intros Hv. destruct Hlv as [L U].
  assert (Hl0 : (0 < FP.to_Q l)%Q) by lra.
  set (w := (v / FP.to_Q l)%Q).
  assert (Hw : (w * FP.to_Q l == v)%Q).
  { unfold w. field. intro A. rewrite A in Hl0. discriminate. }
  assert (Hw0 : (0 <= w)%Q).
  { unfold w, Qdiv. apply Qmult_le_0_compat; [exact Hv|].
    apply Qlt_le_weak, Qinv_lt_0_compat. exact Hl0. }
  rewrite <- Hw. set (k := FP.to_Q l) in *. split; nra.
Qed.

(** [(T * c / l) / 2] converted to [float], for [l] within [2 ^ -25] of
    30.48. *)
Lemma foot_chain T :
  posval f T -> in_range T ->
  let r := FP.cast float_fmt (FP.div f (FP.div f (FP.mul f T c) l) two) in
  posval float_fmt r /\
  (Qabs (FP.to_Q r - FP.to_Q T * (343 # 609600))
     <= FP.to_Q T * (343 # 609600) * (1 # 2097152))%Q.
Proof.
  intros HT [Tl Tu] r.
  destruct (scaled_factor T Tl) as [K1 K2].
  set (t := FP.to_Q T) in *. set (x1 := (t * FP.to_Q c)%Q) in *.
  assert (A1 : approx f (FP.mul f T c) x1).
  { apply mul_approx; try assumption; [apply wide_prec_pos|].
    apply normal_range_intro; fold t; fold x1; lra. }
  pose proof (approx_bounds _ _ A1) as B1.
  set (v1 := FP.to_Q (FP.mul f T c)) in *.
  destruct (div_by_l v1 ltac:(lra)) as [L1 L2].
  set (x2 := (v1 / FP.to_Q l)%Q) in *.
  assert (A2 : approx f (FP.div f (FP.mul f T c) l) x2).
  { apply div_approx'; [eapply approx_posval; exact A1|exact Hl|].
    apply normal_range_intro; fold v1; fold x2; lra. }
  pose proof (approx_bounds _ _ A2) as B2.
  set (v2 := FP.to_Q (FP.div f (FP.mul f T c) l)) in *.
  assert (D3 : (v2 / FP.to_Q two == v2 * (1 # 2))%Q).
  { rewrite Htwov. field. }
  assert (A3 : approx f (FP.div f (FP.div f (FP.mul f T c) l) two) (v2 / FP.to_Q two)).
  { apply div_approx'; [eapply approx_posval; exact A2|exact Htwo|].
    apply normal_range_intro; fold v2; rewrite D3; lra. }
  pose proof (approx_bounds _ _ A3) as B3. rewrite D3 in B3.
  set (v3 := FP.to_Q (FP.div f (FP.div f (FP.mul f T c) l) two)) in *.
  assert (A4 : approx float_fmt r v3).
  { apply cast_approx32; [eapply approx_posval; exact A3|].
    apply normal_range32_intro; fold v3; lra. }
  pose proof (approx32_bounds _ _ A4) as B4.
  split; [eapply approx_posval; exact A4|].
  apply Qabs_Qle_condition. set (v4 := FP.to_Q r) in *.
  split; lra.
Qed.

End Chain.

(** * The constants of the sketch on each board *)

Section Board.
Variable b : board.
Let D := double_fmt b.

Lemma double_fmt_wide : 24 <= prec D /\ 128 <= emax D /\ prec D < emax D.
Proof. unfold D. destruct b; cbn; lia. Qed.

Lemma double_prec_pos : 0 < prec D.
Proof. destruct double_fmt_wide; lia. Qed.

Lemma speed_factor_posval : posval D (speed_factor b).
Proof.
  unfold D. destruct b; vm_compute; reflexivity.
Qed.

Lemma speed_factor_value :
  ((343 # 10000) - (343 # 10000) * (1 # 33554432) <= FP.to_Q (speed_factor b)
   <= (343 # 10000) + (343 # 10000) * (1 # 33554432))%Q.
Proof.
  destruct b; split; apply Qle_bool_iff; vm_compute; reflexivity.
Qed.

Lemma two_shape : exists m e, FP.of_Z D 2 = S754_finite false m e.
Proof.
  unfold D. destruct b.
  - exists 8388608%positive, (-22). vm_compute. reflexivity.
  - exists 4503599627370496%positive, (-51). vm_compute. reflexivity.
Qed.

Lemma two_value : (FP.to_Q (FP.of_Z D 2) == 2)%Q.
Proof. unfold D. destruct b; vm_compute; reflexivity. Qed.

Lemma foot_factor_shape : exists m e, FP.lit D 3048 100 = S754_finite false m e.
Proof.
  unfold D. destruct b.
  - exists 15980298%positive, (-19). vm_compute. reflexivity.
  - exists 8579357290140795%positive, (-48). vm_compute. reflexivity.
Qed.

Lemma foot_factor_value :
  ((3048 # 100) - (3048 # 100) * (1 # 33554432) <= FP.to_Q (FP.lit D 3048 100)
   <= (3048 # 100) + (3048 # 100) * (1 # 33554432))%Q.
Proof.
  unfold D. destruct b; split; apply Qle_bool_iff; vm_compute; reflexivity.
Qed.

Lemma fifty_posval : posval D (FP.of_Z D 50).
Proof.
  unfold D. destruct b; vm_compute; reflexivity.
Qed.

Lemma fifty_value : (FP.to_Q (FP.of_Z D 50) == 50)%Q.
Proof. unfold D. destruct b; vm_compute; reflexivity. Qed.

(** Accuracy of the two conversions on durations in range. *)
Lemma cm_accuracy T :
  posval D T -> in_range T ->
  posval float_fmt (calculateDistanceCM b T) /\
  (Qabs (FP.to_Q (calculateDistanceCM b T) - FP.to_Q T * (343 # 20000))
     <= FP.to_Q T * (343 # 20000) * (1 # 4194304))%Q.
Proof.
  destruct double_fmt_wide as (W1 & W2 & W3).
  intros HT HR. unfold calculateDistanceCM.
  apply (cm_chain D W1 W2 W3 (speed_factor b) (FP.of_Z D 2)
           speed_factor_posval speed_factor_value two_shape two_value T HT HR).
Qed.

Lemma foot_accuracy T :
  posval D T -> in_range T ->
  posval float_fmt (calculateDistanceFoot b T) /\
  (Qabs (FP.to_Q (calculateDistanceFoot b T) - FP.to_Q T * (343 # 609600))
     <= FP.to_Q T * (343 # 609600) * (1 # 2097152))%Q.
Proof.
  destruct double_fmt_wide as (W1 & W2 & W3).
  intros HT HR. unfold calculateDistanceFoot.
  apply (foot_chain D W1 W2 W3 (speed_factor b) (FP.of_Z D 2) (FP.lit D 3048 100)
           speed_factor_posval speed_factor_value two_shape two_value
           foot_factor_shape foot_factor_value T HT HR).
Qed.

(** A zero duration is a zero distance, with its sign. *)
Lemma conversions_of_zero s :
  calculateDistanceCM b (S754_zero s) = S754_zero s /\
  calculateDistanceFoot b (S754_zero s) = S754_zero s.
Proof. destruct b, s; split; vm_compute; reflexivity. Qed.

End Board.

(** Where [double] is single precision the conversions return exactly the
    floating-point value of the expressions with the literal 0.0343: the
    product 343 * 0.0001 rounds to that literal, and the conversion of the
    result to [float] changes nothing. *)
Lemma avr_conversions_as_written T :
  calculateDistanceCM AVR8 T
    = FP.div binary32 (FP.mul binary32 T (FP.lit binary32 343 10000))
        (FP.of_Z binary32 2) /\
  calculateDistanceFoot AVR8 T
    = FP.div binary32
        (FP.div binary32 (FP.mul binary32 T (FP.lit binary32 343 10000))
           (FP.lit binary32 3048 100))
        (FP.of_Z binary32 2).
Proof.
  assert (Hc : speed_factor AVR8 = FP.lit binary32 343 10000)
    by (vm_compute; reflexivity).
  assert (Hp : 0 < prec binary32) by reflexivity.
  unfold calculateDistanceCM, calculateDistanceFoot. cbn [double_fmt].
  rewrite Hc. unfold float_fmt.
  split; apply (cast_valid binary32); apply (div_valid binary32 Hp).
Qed.

(** * The distance measured for a reading of the echo timer *)

Section Reading.
Variable b : board.
Let D := double_fmt b.

Lemma Qfloor_below x k : (x < inject_Z k)%Q -> Qfloor x < k.
Proof.
  intros H. rewrite Zlt_Qlt. eapply Qle_lt_trans; [apply Qfloor_le|exact H].
Qed.

Lemma Qfloor_nonneg x : (0 <= x)%Q -> 0 <= Qfloor x.
Proof.
  intros H. change 0 with (Qfloor 0). apply Qfloor_resp_le. exact H.
Qed.

(** A non-zero reading converts to a positive [double] close to it. *)
Lemma reading_to_double n :
  1 <= n < 2 ^ 32 ->
  posval D (FP.of_Z D n) /\ in_range (FP.of_Z D n) /\
  (inject_Z n - inject_Z n * (1 # 16777216) <= FP.to_Q (FP.of_Z D n)
   <= inject_Z n + inject_Z n * (1 # 16777216))%Q.
Proof.
  intros Hn. destruct (double_fmt_wide b) as (W1 & W2 & W3). fold D in W1, W2, W3.
  assert (L : (1 <= inject_Z n)%Q) by (change 1%Q with (inject_Z 1); rewrite <- Zle_Qle; lia).
  assert (U : (inject_Z n < 4294967296)%Q)
    by (change 4294967296%Q with (inject_Z (2 ^ 32)); rewrite <- Zlt_Qlt; lia).
  assert (A : approx D (FP.of_Z D n) (inject_Z n)).
  { apply of_Z_approx; [lia|lia|]. apply normal_range_intro; try assumption; lra. }
  pose proof (approx_bounds D W1 _ _ A) as B.
  split; [eapply approx_posval; exact A|]. split; [|exact B].
  unfold in_range. lra.
Qed.

Lemma measured_of_zero r :
  pulseIn_result r = 0 -> measured b r = S754_zero false.
Proof.
  intros H. unfold measured. rewrite H. destruct b; vm_compute; reflexivity.
Qed.

(** For a non-zero reading the measured distance is a positive [double]
    within 2^-21 of the exact quotient. *)
Lemma measured_posval r :
  1 <= pulseIn_result r < 2 ^ 32 ->
  posval D (measured b r) /\
  (0 < FP.to_Q (measured b r))%Q.
Proof.
  intros Hn. destruct (double_fmt_wide b) as (W1 & W2 & W3). fold D in W1, W2, W3.
  destruct (reading_to_double _ Hn) as (P & R & B).
  destruct (cm_accuracy b _ P R) as (P' & E). fold D in P', E.
  apply Qabs_Qle_condition in E.
  set (t := FP.to_Q (FP.of_Z D (pulseIn_result r))) in *.
  set (v := FP.to_Q (calculateDistanceCM b (FP.of_Z D (pulseIn_result r)))) in *.
  assert (L : (1 <= inject_Z (pulseIn_result r))%Q)
    by (change 1%Q with (inject_Z 1); rewrite <- Zle_Qle; lia).
  assert (U : (inject_Z (pulseIn_result r) < 4294967296)%Q)
    by (change 4294967296%Q with (inject_Z (2 ^ 32)); rewrite <- Zlt_Qlt; lia).
  destruct (posval_inv _ _ P') as (p & e & Hp & _).
  assert (A : approx D (measured b r) v).
  { unfold measured. fold D. unfold v. rewrite Hp. apply cast_approx; [lia|].
    rewrite <- Hp. fold v. apply normal_range_intro; try assumption; lra. }
  pose proof (approx_bounds D W1 _ _ A) as B'.
  split; [eapply approx_posval; exact A|]. lra.
Qed.

(** Below the threshold the conversion to [unsigned long] is defined. *)
Lemma measured_trunc r :
  echo_ok r ->
  FP.ltb (measured b r) (FP.of_Z D 50) = true ->
  FP.trunc (measured b r) = Some (Qfloor (FP.to_Q (measured b r))) /\
  0 <= Qfloor (FP.to_Q (measured b r)) < 50.
Proof.
  intros Hr Hlt. unfold echo_ok in Hr.
  destruct (Z.eq_dec (pulseIn_result r) 0) as [Hz|Hnz].
  - rewrite (measured_of_zero r Hz). split; [reflexivity|cbn; lia].
  - destruct (measured_posval r ltac:(lia)) as (P & Pos).
    destruct (double_fmt_wide b) as (W1 & W2 & W3). fold D in W1, W2, W3.
    apply (ltb_spec D ltac:(lia) _ _ P (fifty_posval b)) in Hlt.
    rewrite (fifty_value b) in Hlt.
    destruct (posval_inv _ _ P) as (p & e & Hp & _). rewrite Hp in *.
    assert (F : Qfloor (FP.to_Q (S754_finite false p e)) < 50)
      by (apply Qfloor_below; exact Hlt).
    split.
    + apply trunc_floor. lia.
    + split; [apply Qfloor_nonneg; lra|exact F].
Qed.

End Reading.

(** * The effects of the sketch *)

Lemma blinkLED_run d n s :
  FP.trunc d = Some n ->
  exists s',
    blinkLED d s = Some (tt, s') /\
    limit s' = limit s /\
    pins s' LED = LOW /\
    (forall p, p <> LED -> pins s' p = pins s p) /\
    clock_ms s' = clock_ms s + 2 * n /\
    trace s' = trace s ++ blink_events n.
Proof.
  intros Hn. unfold blinkLED. run_sketch. rewrite Hn. run_sketch.
  eexists. split; [reflexivity|]. cbn [limit pins clock_ms trace].
  split; [reflexivity|]. split; [reflexivity|].
  split.
  { intros p Hp. unfold set_pin. destruct (Z.eqb_spec p LED); [contradiction|reflexivity]. }
  split; [lia|].
  unfold blink_events. rewrite <- !app_assoc. reflexivity.
Qed.

Lemma blinkLED_undefined d s :
  FP.trunc d = None -> blinkLED d s = None.
Proof.
  intros Hn. unfold blinkLED. run_sketch. rewrite Hn. reflexivity.
Qed.

Section Effects.
Variable b : board.
Let D := double_fmt b.

Lemma loop_decompose r :
  loop b r = bind (getDistance b r) (after_measure b).
Proof. reflexivity. Qed.

Lemma getDistance_run r s :
  getDistance b r s =
  Some (measured b r,
        {| limit := limit s;
           pins := set_pin (set_pin (set_pin (pins s) TRIG LOW) TRIG HIGH) TRIG LOW;
           clock_ms := clock_ms s + 10 + 10;
           trace := trace s ++ trig_events ++
                    [EvPulseIn ECHO HIGH (pulseIn_result r)] |}).
Proof.
  unfold getDistance. run_sketch. unfold measured, trig_events.
  rewrite <- !app_assoc. reflexivity.
Qed.

(** One cycle from a state whose threshold is 50. *)
Lemma loop_run r s :
  echo_ok r -> limit s = 50 ->
  exists s',
    loop b r s = Some (tt, s') /\
    limit s' = 50 /\
    trace s' = trace s ++ cycle_events b r /\
    pins s' LED = (if FP.ltb (measured b r) (FP.of_Z D 50) then LOW else pins s LED).
Proof.
  intros Hr Hl. rewrite loop_decompose. unfold bind at 1.
  rewrite getDistance_run. unfold after_measure. run_sketch. rewrite Hl. fold D.
  unfold cycle_events. fold D.
  destruct (FP.ltb (measured b r) (FP.of_Z D 50)) eqn:B.
  - destruct (measured_trunc b r Hr B) as (Hn & _).
    match goal with
    | |- context [blinkLED (measured b r) ?s0] =>
        destruct (blinkLED_run (measured b r) _ s0 Hn)
          as (s1 & R1 & L1 & P1 & _ & _ & T1);
        rewrite R1
    end.
    cbn [limit pins clock_ms trace] in *.
    eexists. split; [reflexivity|]. cbn [limit pins clock_ms trace].
    split; [congruence|]. split; [|exact P1].
    rewrite T1. rewrite <- !app_assoc. reflexivity.
  - eexists. split; [reflexivity|]. cbn [limit pins clock_ms trace].
    split; [reflexivity|]. split; [|reflexivity].
    rewrite <- !app_assoc. reflexivity.
Qed.

(** No cycle assigns to [limit], whatever the state. *)
Lemma loop_keeps_limit r s s' :
  loop b r s = Some (tt, s') -> limit s' = limit s.
Proof.
  rewrite loop_decompose. unfold bind at 1. rewrite getDistance_run.
  unfold after_measure. run_sketch.
  match goal with
  | |- context [if ?c then _ else _] => destruct c
  end.
  - match goal with
    | |- context [blinkLED ?d ?s0] =>
        destruct (FP.trunc d) as [n|] eqn:Hn;
        [destruct (blinkLED_run d n s0 Hn) as (s1 & R1 & L1 & _); rewrite R1
        |rewrite (blinkLED_undefined d s0 Hn); discriminate]
    end.
    intros H. injection H as <-. cbn [limit] in *. exact L1.
  - intros H. injection H as <-. reflexivity.
Qed.

Lemma cycles_run rs : forall s,
  Forall echo_ok rs -> limit s = 50 -> pins s LED = LOW ->
  exists s',
    cycles b rs s = Some (tt, s') /\
    limit s' = 50 /\
    pins s' LED = LOW /\
    trace s' = trace s ++ List.concat (map (cycle_events b) rs).
Proof.
  induction rs as [|r rs IH]; intros s Hrs Hl Hp.
  - exists s. cbn. rewrite app_nil_r. auto.
  - inversion Hrs as [|? ? Hr Hrs']; subst.
    destruct (loop_run r s Hr Hl) as (s1 & R1 & L1 & T1 & P1).
    assert (P1' : pins s1 LED = LOW).
    { rewrite P1. destruct (FP.ltb _ _); [reflexivity|exact Hp]. }
    destruct (IH s1 Hrs' L1 P1') as (s2 & R2 & L2 & P2 & T2).
    exists s2. cbn [cycles]. unfold bind at 1. rewrite R1.
    split; [exact R2|]. split; [exact L2|]. split; [exact P2|].
    rewrite T2, T1. cbn [map List.concat]. rewrite <- app_assoc. reflexivity.
Qed.

Lemma setup_run s :
  setup s = Some (tt, {| limit := limit s; pins := pins s; clock_ms := clock_ms s;
                         trace := trace s ++ [EvLcdBegin 16 1; EvPinMode TRIG OUTPUT;
                                              EvPinMode ECHO INPUT; EvSerialBegin 9600] |}).
Proof. run_sketch. rewrite <- !app_assoc. reflexivity. Qed.

Lemma sketch_run rs :
  Forall echo_ok rs ->
  exists s',
    sketch b rs power_on = Some (tt, s') /\
    limit s' = 50 /\
    pins s' LED = LOW /\
    trace s' = [EvLcdBegin 16 1; EvPinMode TRIG OUTPUT; EvPinMode ECHO INPUT;
                EvSerialBegin 9600] ++ List.concat (map (cycle_events b) rs).
Proof.
  intros Hrs. unfold sketch, bind at 1. rewrite setup_run.
  match goal with
  | |- context [cycles b rs ?s0] =>
      destruct (cycles_run rs s0 Hrs eq_refl eq_refl) as (s' & R & L & P & T)
  end.
  exists s'. auto.
Qed.

End Effects.

(** * The distance conversion (claims C1 and C7) *)

(** C1, counterexample: for an echo of 1000 microseconds the claim gives
    (1000 * 0.0343) / 2 = 17.15 centimetres; on both boards the conversion
    returns the single-precision number 8991539 / 2^19 = 17.1499996185...,
    because 17.15 is not a floating-point number.  Where [double] is
    binary64 the result also differs from the value of (T * 0.0343) / 2
    computed in [double]: the result is rounded to [float], and the
    factor 343 * 0.0001 is 0.034300000000000004 there, not 0.0343. *)
Lemma conversion_not_exact :
  ~ (FP.to_Q (calculateDistanceCM AVR8 (FP.of_Z binary32 1000))
     == 1000 * (343 # 10000) / 2)%Q /\
  ~ (FP.to_Q (calculateDistanceCM ARM32 (FP.of_Z binary64 1000))
     == 1000 * (343 # 10000) / 2)%Q /\
  ~ (FP.to_Q (calculateDistanceCM ARM32 (FP.of_Z binary64 1000))
     == FP.to_Q (FP.div binary64
                   (FP.mul binary64 (FP.of_Z binary64 1000)
                      (FP.lit binary64 343 10000))
                   (FP.of_Z binary64 2)))%Q /\
  speed_factor ARM32 <> FP.lit binary64 343 10000.
Proof.
  split; [|split; [|split]];
    try (intros H; apply Qeq_bool_iff in H; vm_compute in H; discriminate H).
  intros H. vm_compute in H. discriminate H.
Qed.

(** C1 (amended): on every board and for every echo duration T between
    2^-32 and 2^64 microseconds, [calculateDistanceCM] returns a
    single-precision number within a relative error of 2^-22 of
    (T * 0.0343) / 2, and [calculateDistanceFoot] one within 2^-21 of
    (T * 0.0343 / 30.48) / 2; both conversions map a zero duration to a
    zero distance; where [double] is single precision (AVR boards) the
    results are, for every T, the floating-point values of
    (T * 0.0343) / 2 and (T * 0.0343 / 30.48) / 2. *)
Theorem conversion_accuracy (b : board) (T : spec_float) :
  posval (double_fmt b) T -> in_range T ->
  (posval float_fmt (calculateDistanceCM b T) /\
   (Qabs (FP.to_Q (calculateDistanceCM b T) - FP.to_Q T * (343 # 10000) / 2)
      <= FP.to_Q T * (343 # 10000) / 2 * (1 # 4194304))%Q) /\
  (posval float_fmt (calculateDistanceFoot b T) /\
   (Qabs (FP.to_Q (calculateDistanceFoot b T)
          - FP.to_Q T * (343 # 10000) / (3048 # 100) / 2)
      <= FP.to_Q T * (343 # 10000) / (3048 # 100) / 2 * (1 # 2097152))%Q) /\
  (forall s, calculateDistanceCM b (S754_zero s) = S754_zero s /\
             calculateDistanceFoot b (S754_zero s) = S754_zero s) /\
  (b = AVR8 ->
   forall T',
     calculateDistanceCM b T'
       = FP.div binary32 (FP.mul binary32 T' (FP.lit binary32 343 10000))
           (FP.of_Z binary32 2) /\
     calculateDistanceFoot b T'
       = FP.div binary32
           (FP.div binary32 (FP.mul binary32 T' (FP.lit binary32 343 10000))
              (FP.lit binary32 3048 100))
           (FP.of_Z binary32 2)).
Proof.
  intros HT HR.
  destruct (cm_accuracy b T HT HR) as [P1 E1].
  destruct (foot_accuracy b T HT HR) as [P2 E2].
  split; [split; [exact P1|]
         |split; [split; [exact P2|]
                 |split; [apply conversions_of_zero
                         |intros ->; apply avr_conversions_as_written]]].
  - setoid_replace (FP.to_Q T * (343 # 10000) / 2)%Q
      with (FP.to_Q T * (343 # 20000))%Q by field.
    exact E1.
  - setoid_replace (FP.to_Q T * (343 # 10000) / (3048 # 100) / 2)%Q
      with (FP.to_Q T * (343 # 609600))%Q by field.
    exact E2.
Qed.

Lemma conversion_accuracy_witness :
  posval (double_fmt AVR8) (FP.of_Z binary32 1000) /\
  in_range (FP.of_Z binary32 1000) /\
  (Qabs (FP.to_Q (calculateDistanceCM AVR8 (FP.of_Z binary32 1000))
         - FP.to_Q (FP.of_Z binary32 1000) * (343 # 10000) / 2)
     <= FP.to_Q (FP.of_Z binary32 1000) * (343 # 10000) / 2 * (1 # 4194304))%Q.
Proof.
  assert (HT : posval (double_fmt AVR8) (FP.of_Z binary32 1000)).
  { vm_compute. reflexivity. }
  assert (HR : in_range (FP.of_Z binary32 1000)).
  { split; apply Qle_bool_iff; vm_compute; reflexivity. }
  split; [exact HT|]. split; [exact HR|].
  exact (proj2 (proj1 (conversion_accuracy AVR8 (FP.of_Z binary32 1000) HT HR))).
Defined.

(** C7, counterexample: the readings 16000003 and 16000004 microseconds,
    both exact as [double] on both boards, give the same distance: the
    step of 0.01715 cm is below the spacing of single-precision numbers
    near 274400. *)
Lemma centimeters_not_strictly_increasing :
  (FP.to_Q (FP.of_Z binary32 16000003) < FP.to_Q (FP.of_Z binary32 16000004))%Q /\
  calculateDistanceCM AVR8 (FP.of_Z binary32 16000003)
    = calculateDistanceCM AVR8 (FP.of_Z binary32 16000004) /\
  FP.ltb (calculateDistanceCM AVR8 (FP.of_Z binary32 16000003))
         (calculateDistanceCM AVR8 (FP.of_Z binary32 16000004)) = false /\
  (FP.to_Q (FP.of_Z binary64 16000003) < FP.to_Q (FP.of_Z binary64 16000004))%Q /\
  calculateDistanceCM ARM32 (FP.of_Z binary64 16000003)
    = calculateDistanceCM ARM32 (FP.of_Z binary64 16000004) /\
  FP.ltb (calculateDistanceCM ARM32 (FP.of_Z binary64 16000003))
         (calculateDistanceCM ARM32 (FP.of_Z binary64 16000004)) = false.
Proof.
  repeat split; vm_compute; reflexivity.
Qed.

(** C7 (amended): on whole-microsecond echo durations up to 2,000,000
    microseconds, as the echo timer reports them, the centimetre conversion
    is strictly increasing: 0 <= T1 < T2 <= 2000000 gives
    toCentimeters(T1) < toCentimeters(T2), both as exact values and under
    the floating-point comparison. *)
Theorem centimeters_increasing_on_readings (b : board) (n1 n2 : Z) :
  0 <= n1 < n2 -> n2 <= 2000000 ->
  (FP.to_Q (calculateDistanceCM b (FP.of_Z (double_fmt b) n1))
   < FP.to_Q (calculateDistanceCM b (FP.of_Z (double_fmt b) n2)))%Q /\
  FP.ltb (calculateDistanceCM b (FP.of_Z (double_fmt b) n1))
         (calculateDistanceCM b (FP.of_Z (double_fmt b) n2)) = true.
Proof.
  intros H12 H2.
  destruct (double_fmt_wide b) as (W1 & W2 & W3).
  assert (Hpow : 2 ^ 24 <= 2 ^ prec (double_fmt b)) by (apply Z.pow_le_mono_r; lia).
  assert (Hsmall : 2000000 < 2 ^ 24) by reflexivity.
  assert (Reading : forall n, 1 <= n <= 2000000 ->
            posval float_fmt (calculateDistanceCM b (FP.of_Z (double_fmt b) n)) /\
            (Qabs (FP.to_Q (calculateDistanceCM b (FP.of_Z (double_fmt b) n))
                   - inject_Z n * (343 # 20000))
               <= inject_Z n * (343 # 20000) * (1 # 4194304))%Q).
  { intros n Hn.
    destruct (of_Z_exact (double_fmt b) ltac:(lia) ltac:(lia) n ltac:(lia)) as [P V].
    assert (L : (1 <= inject_Z n)%Q)
      by (change 1%Q with (inject_Z 1); rewrite <- Zle_Qle; lia).
    assert (U : (inject_Z n <= 2000000)%Q)
      by (change 2000000%Q with (inject_Z 2000000); rewrite <- Zle_Qle; lia).
    assert (R : in_range (FP.of_Z (double_fmt b) n)).
    { unfold in_range. rewrite V. lra. }
    destruct (cm_accuracy b _ P R) as [P' E]. rewrite V in E. auto. }
  assert (U2 : (inject_Z n2 <= 2000000)%Q)
    by (change 2000000%Q with (inject_Z 2000000); rewrite <- Zle_Qle; lia).
  destruct (Reading n2 ltac:(lia)) as [P2 E2].
  apply Qabs_Qle_condition in E2.
  destruct (Z.eq_dec n1 0) as [->|N1].
  - assert (Hz : calculateDistanceCM b (FP.of_Z (double_fmt b) 0) = S754_zero false)
      by (destruct b; vm_compute; reflexivity).
    rewrite Hz.
    assert (L2 : (1 <= inject_Z n2)%Q)
      by (change 1%Q with (inject_Z 1); rewrite <- Zle_Qle; lia).
    split; [cbn [FP.to_Q]; lra|].
    destruct (posval_inv _ _ P2) as (p & e & -> & _). reflexivity.
  - destruct (Reading n1 ltac:(lia)) as [P1 E1].
    apply Qabs_Qle_condition in E1.
    assert (L1 : (1 <= inject_Z n1)%Q)
      by (change 1%Q with (inject_Z 1); rewrite <- Zle_Qle; lia).
    assert (S12 : (inject_Z n1 + 1 <= inject_Z n2)%Q).
    { change 1%Q with (inject_Z 1). rewrite <- inject_Z_plus, <- Zle_Qle. lia. }
    assert (Lt : (FP.to_Q (calculateDistanceCM b (FP.of_Z (double_fmt b) n1))
                  < FP.to_Q (calculateDistanceCM b (FP.of_Z (double_fmt b) n2)))%Q) by lra.
    split; [exact Lt|].
    apply (ltb_spec float_fmt ltac:(cbn; lia) _ _ P1 P2). exact Lt.
Qed.

Lemma centimeters_increasing_on_readings_witness :
  0 <= 999 < 1000 /\ 1000 <= 2000000 /\
  FP.ltb (calculateDistanceCM AVR8 (FP.of_Z (double_fmt AVR8) 999))
         (calculateDistanceCM AVR8 (FP.of_Z (double_fmt AVR8) 1000)) = true.
Proof.
  split; [lia|]. split; [lia|].
  exact (proj2 (centimeters_increasing_on_readings AVR8 999 1000 ltac:(lia) ltac:(lia))).
Defined.

(** * The threshold and the indicator (claims C2, C6, C9) *)

Lemma nonneg_inv f d :
  nonneg f d -> (exists s, d = S754_zero s) \/ posval f d.
Proof.
  unfold nonneg, posval. destruct d; cbn [FP.is_nonneg]; eauto.
Qed.

(** For zeros and positive values the conversion to [unsigned long] is
    the floor of the exact value. *)
Lemma trunc_nonneg f d :
  nonneg f d -> Qfloor (FP.to_Q d) < 2 ^ 32 ->
  FP.trunc d = Some (Qfloor (FP.to_Q d)).
Proof.
  intros Hd H. destruct (nonneg_inv f d Hd) as [[s ->]|P].
  - reflexivity.
  - destruct (posval_inv f d P) as (m & e & -> & _). apply trunc_floor. exact H.
Qed.

Section Threshold.
Variable b : board.
Let D := double_fmt b.

(** The comparison [distance < limit] of the sketch agrees with the
    order of the exact values. *)
Lemma ltb_threshold d :
  nonneg D d ->
  (FP.ltb d (FP.of_Z D 50) = true <-> (FP.to_Q d < 50)%Q).
Proof.
  intros Hd. destruct (nonneg_inv D d Hd) as [[s ->]|P].
  - destruct (posval_inv D _ (fifty_posval b)) as (p & e & E & _).
    fold D in E. rewrite E.
    cbn. split; [intros _; reflexivity|reflexivity].
  - pose proof (ltb_spec D (double_prec_pos b) _ _ P (fifty_posval b)) as H.
    pose proof (fifty_value b) as V. fold D in H, V.
    rewrite V in H. exact H.
Qed.

Lemma trunc_below_threshold d :
  nonneg D d -> (FP.to_Q d < 50)%Q ->
  FP.trunc d = Some (Qfloor (FP.to_Q d)).
Proof.
  intros Hd H. apply (trunc_nonneg D d Hd).
  pose proof (Qfloor_below _ 50 H). lia.
Qed.

Lemma after_measure_run d s :
  limit s = 50 ->
  nonneg D d ->
  exists s',
    after_measure b d s = Some (tt, s') /\
    trace s' = trace s ++
      [EvLcdPrint (TCat (TDouble d) cm_suffix); EvSerialPrintln d] ++
      (if Qlt_le_dec (FP.to_Q d) 50
       then blink_events (Qfloor (FP.to_Q d)) else []) ++
      [EvDelay 200; EvLcdClear].
Proof.
  intros Hl Hd. unfold after_measure. run_sketch. rewrite Hl. fold D.
  pose proof (ltb_threshold d Hd) as T.
  destruct (Qlt_le_dec (FP.to_Q d) 50) as [Lt|Ge].
  - rewrite (proj2 T Lt).
    pose proof (trunc_below_threshold d Hd Lt) as Hn.
    match goal with
    | |- context [blinkLED d ?s0] =>
        destruct (blinkLED_run d _ s0 Hn) as (s1 & R1 & _ & _ & _ & _ & T1);
        rewrite R1
    end.
    cbn [limit pins clock_ms trace] in *.
    eexists. split; [reflexivity|]. cbn [trace].
    rewrite T1, <- !app_assoc. reflexivity.
  - destruct (FP.ltb d (FP.of_Z D 50)) eqn:B.
    + exfalso. apply (Qlt_not_le _ _ (proj1 T eq_refl) Ge).
    + eexists. split; [reflexivity|]. cbn [trace].
      rewrite <- !app_assoc. reflexivity.
Qed.

End Threshold.

(** C2: in a cycle (threshold 50) the part of [loop] that follows the
    measurement calls [blinkLED] exactly when the exact value of the
    measured distance is strictly below 50, and passes the distance itself;
    the cycle writes to the LED pin if and only if the distance is below
    50; a distance of exactly 50 does not start the blink and 49.999
    does. *)
Theorem blink_iff_below_threshold (b : board) (d : spec_float) (s : state) :
  limit s = 50 ->
  nonneg (double_fmt b) d ->
  (forall r, loop b r = bind (getDistance b r) (after_measure b)) /\
  after_measure b d s =
    (lcdDisplayMessage (TDouble d) ;;
     emit (EvSerialPrintln d) ;;
     (if Qlt_le_dec (FP.to_Q d) 50 then blinkLED d else ret tt) ;;
     delay 200 ;;
     emit EvLcdClear)%sketch s /\
  (exists s' evs,
      after_measure b d s = Some (tt, s') /\
      trace s' = trace s ++ evs /\
      (writes_pin LED evs = true <-> (FP.to_Q d < 50)%Q)) /\
  FP.ltb (FP.of_Z (double_fmt b) 50) (FP.of_Z (double_fmt b) 50) = false /\
  FP.ltb (FP.lit (double_fmt b) 49999 1000) (FP.of_Z (double_fmt b) 50) = true.
Proof.
  intros Hl Hd. split; [intros r; reflexivity|]. split; [|split; [|split]].
  - unfold after_measure. run_sketch. rewrite Hl.
    pose proof (ltb_threshold b d Hd) as T.
    destruct (Qlt_le_dec (FP.to_Q d) 50) as [Lt|Ge].
    + rewrite (proj2 T Lt). reflexivity.
    + destruct (FP.ltb d (FP.of_Z (double_fmt b) 50)) eqn:B; [|reflexivity].
      exfalso. apply (Qlt_not_le _ _ (proj1 T eq_refl) Ge).
  - destruct (after_measure_run b d s Hl Hd) as (s' & R & T).
    eexists. eexists. split; [exact R|]. split; [exact T|].
    destruct (Qlt_le_dec (FP.to_Q d) 50) as [Lt|Ge].
    + split; [intros _; exact Lt|intros _; reflexivity].
    + split; [intros H; discriminate H|].
      intros Lt. exfalso. apply (Qlt_not_le _ _ Lt Ge).
  - destruct b; vm_compute; reflexivity.
  - destruct b; vm_compute; reflexivity.
Qed.

Lemma blink_iff_below_threshold_witness :
  limit power_on = 50 /\
  nonneg (double_fmt AVR8) (FP.lit binary32 49999 1000) /\
  exists s' evs,
    after_measure AVR8 (FP.lit binary32 49999 1000) power_on = Some (tt, s') /\
    trace s' = trace power_on ++ evs /\
    (writes_pin LED evs = true <-> (FP.to_Q (FP.lit binary32 49999 1000) < 50)%Q).
Proof.
  assert (P : nonneg (double_fmt AVR8) (FP.lit binary32 49999 1000)).
  { vm_compute. reflexivity. }
  split; [reflexivity|]. split; [exact P|].
  exact (proj1 (proj2 (proj2
           (blink_iff_below_threshold AVR8 (FP.lit binary32 49999 1000) power_on
              eq_refl P)))).
Defined.

(** C6, counterexample: called with the distance measured for an echo of
    1000 microseconds (17.1499996... cm) [blinkLED] holds each level for
    17 ms and blocks for 34 ms, not for twice the distance. *)
Lemma blinkLED_not_twice_distance :
  exists s',
    blinkLED (measured AVR8 (Pulse 1000)) power_on = Some (tt, s') /\
    trace s' = blink_events 17 /\
    clock_ms s' = 34 /\
    ~ (inject_Z (clock_ms s') == 2 * FP.to_Q (measured AVR8 (Pulse 1000)))%Q.
Proof.
  eexists. split; [vm_compute; reflexivity|]. cbn [trace clock_ms].
  split; [reflexivity|]. split; [reflexivity|].
  intros H. apply Qeq_bool_iff in H. vm_compute in H. discriminate H.
Qed.

(** C6 (amended): a call of [blinkLED] with a non-negative duration d
    below 2^32 drives the LED line through exactly the sequence low, high,
    pause of floor(d) ms, low, pause of floor(d) ms, and blocks the caller
    for 2 * floor(d) ms, which is 2 * d when d is a whole number. *)
Theorem blinkLED_sequence (b : board) (d : spec_float) (s : state) :
  nonneg (double_fmt b) d ->
  Qfloor (FP.to_Q d) < 2 ^ 32 ->
  exists s',
    blinkLED d s = Some (tt, s') /\
    trace s' = trace s ++
      [EvWrite LED LOW; EvWrite LED HIGH; EvDelay (Qfloor (FP.to_Q d));
       EvWrite LED LOW; EvDelay (Qfloor (FP.to_Q d))] /\
    clock_ms s' = clock_ms s + 2 * Qfloor (FP.to_Q d) /\
    ((FP.to_Q d == inject_Z (Qfloor (FP.to_Q d)))%Q ->
     (inject_Z (clock_ms s' - clock_ms s) == 2 * FP.to_Q d)%Q).
Proof.
  intros Hd H.
  destruct (blinkLED_run _ _ s (trunc_nonneg _ d Hd H))
    as (s' & R & _ & _ & _ & C & T).
  exists s'. split; [exact R|]. split; [exact T|]. split; [exact C|].
  intros E. rewrite C. rewrite E at 2.
  replace (clock_ms s + 2 * Qfloor (FP.to_Q d) - clock_ms s)
    with (2 * Qfloor (FP.to_Q d)) by lia.
  rewrite inject_Z_mult. reflexivity.
Qed.

Lemma blinkLED_sequence_witness :
  nonneg (double_fmt AVR8) (FP.lit binary32 3 2) /\
  Qfloor (FP.to_Q (FP.lit binary32 3 2)) < 2 ^ 32 /\
  exists s',
    blinkLED (FP.lit binary32 3 2) power_on = Some (tt, s') /\
    trace s' = trace power_on ++
      [EvWrite LED LOW; EvWrite LED HIGH;
       EvDelay (Qfloor (FP.to_Q (FP.lit binary32 3 2)));
       EvWrite LED LOW;
       EvDelay (Qfloor (FP.to_Q (FP.lit binary32 3 2)))].
Proof.
  assert (Hd : nonneg (double_fmt AVR8) (FP.lit binary32 3 2))
    by (vm_compute; reflexivity).
  assert (H : Qfloor (FP.to_Q (FP.lit binary32 3 2)) < 2 ^ 32) by reflexivity.
  split; [exact Hd|]. split; [exact H|].
  destruct (blinkLED_sequence AVR8 (FP.lit binary32 3 2) power_on Hd H)
    as (s' & R & T & _).
  exists s'. split; [exact R|exact T].
Defined.

(** C9: the [double] handed to [delay] is converted to [unsigned long] by
    discarding its fraction, so the pause is floor(d) ms; when d is not a
    whole number this is strictly less than d.  For the distance measured
    for an echo of 1000 microseconds the pause is 17 ms. *)
Theorem delay_argument_is_floor (b : board) (d : spec_float) (s : state) :
  nonneg (double_fmt b) d ->
  Qfloor (FP.to_Q d) < 2 ^ 32 ->
  to_ulong d s = Some (Qfloor (FP.to_Q d), s) /\
  (exists s',
     blinkLED d s = Some (tt, s') /\
     half_period LED (blink_events (Qfloor (FP.to_Q d)))
       = Some (Qfloor (FP.to_Q d)) /\
     trace s' = trace s ++ blink_events (Qfloor (FP.to_Q d))) /\
  (~ (FP.to_Q d == inject_Z (Qfloor (FP.to_Q d)))%Q ->
   (inject_Z (Qfloor (FP.to_Q d)) < FP.to_Q d)%Q) /\
  FP.trunc (measured b (Pulse 1000)) = Some 17 /\
  (17 < FP.to_Q (measured b (Pulse 1000)) < 18)%Q.
Proof.
  intros Hd H. pose proof (trunc_nonneg _ d Hd H) as Hn.
  split; [unfold to_ulong; rewrite Hn; reflexivity|].
  split.
  { destruct (blinkLED_run _ _ s Hn) as (s' & R & _ & _ & _ & _ & T).
    exists s'. split; [exact R|]. split; [|exact T].
    reflexivity. }
  split.
  { intros NE. pose proof (Qfloor_le (FP.to_Q d)) as L.
    apply Qle_lteq in L. destruct L as [L|L]; [exact L|].
    exfalso. apply NE. symmetry. exact L. }
  split; [destruct b; vm_compute; reflexivity|].
  destruct b; split; vm_compute; reflexivity.
Qed.

Lemma delay_argument_is_floor_witness :
  nonneg (double_fmt ARM32) (measured ARM32 (Pulse 1000)) /\
  Qfloor (FP.to_Q (measured ARM32 (Pulse 1000))) < 2 ^ 32 /\
  to_ulong (measured ARM32 (Pulse 1000)) power_on
    = Some (Qfloor (FP.to_Q (measured ARM32 (Pulse 1000))), power_on).
Proof.
  assert (Hd : nonneg (double_fmt ARM32) (measured ARM32 (Pulse 1000)))
    by (vm_compute; reflexivity).
  assert (H : Qfloor (FP.to_Q (measured ARM32 (Pulse 1000))) < 2 ^ 32)
    by (vm_compute; reflexivity).
  split; [exact Hd|]. split; [exact H|].
  exact (proj1 (delay_argument_is_floor ARM32 _ power_on Hd H)).
Defined.

(** * Whole cycles (claims C3, C4, C5, C8, C10) *)

(** C3, counterexample: after the cycle for an echo of 1000 microseconds
    the pause that follows the LED going high is 17 ms on both boards, not
    17.15 ms, and the distance is not exactly 17.15. *)
Lemma echo_1000_half_period_is_17 :
  (exists s',
     loop AVR8 (Pulse 1000) power_on = Some (tt, s') /\
     half_period LED (trace s') = Some 17) /\
  (exists s',
     loop ARM32 (Pulse 1000) power_on = Some (tt, s') /\
     half_period LED (trace s') = Some 17) /\
  ~ (inject_Z 17 == 1715 # 100)%Q /\
  ~ (FP.to_Q (measured AVR8 (Pulse 1000)) == 1715 # 100)%Q /\
  ~ (FP.to_Q (measured ARM32 (Pulse 1000)) == 1715 # 100)%Q.
Proof.
  split; [eexists; split; vm_compute; reflexivity|].
  split; [eexists; split; vm_compute; reflexivity|].
  repeat split; intros H; apply Qeq_bool_iff in H; vm_compute in H; discriminate H.
Qed.

(** C3 (amended): for an echo of 1000 microseconds the measured distance
    is the single-precision number 8991539 / 2^19 = 17.1499996..., within
    2^-21 of 17.15 cm; it is below the threshold, the indicator blinks, and
    the blink half-period is 17 ms. *)
Theorem echo_1000_cycle (b : board) (s : state) :
  limit s = 50 ->
  (FP.to_Q (measured b (Pulse 1000)) == 8991539 # 524288)%Q /\
  (Qabs (FP.to_Q (measured b (Pulse 1000)) - (1715 # 100)) <= 1 # 2097152)%Q /\
  FP.ltb (measured b (Pulse 1000)) (FP.of_Z (double_fmt b) 50) = true /\
  exists s',
    loop b (Pulse 1000) s = Some (tt, s') /\
    trace s' = trace s ++
      trig_events ++
      [EvPulseIn ECHO HIGH 1000;
       EvLcdPrint (TCat (TDouble (measured b (Pulse 1000))) cm_suffix);
       EvSerialPrintln (measured b (Pulse 1000))] ++
      blink_events 17 ++
      [EvDelay 200; EvLcdClear] /\
    half_period LED (cycle_events b (Pulse 1000)) = Some 17.
Proof.
  intros Hl.
  split; [destruct b; vm_compute; reflexivity|].
  split; [destruct b; apply Qle_bool_iff; vm_compute; reflexivity|].
  split; [destruct b; vm_compute; reflexivity|].
  assert (Hr : echo_ok (Pulse 1000)) by (unfold echo_ok; cbn; lia).
  destruct (loop_run b (Pulse 1000) s Hr Hl) as (s' & R & _ & T & _).
  exists s'. split; [exact R|]. split.
  - rewrite T. f_equal. destruct b; vm_compute; reflexivity.
  - destruct b; vm_compute; reflexivity.
Qed.

Lemma echo_1000_cycle_witness :
  limit power_on = 50 /\
  exists s',
    loop AVR8 (Pulse 1000) power_on = Some (tt, s') /\
    trace s' = trace power_on ++
      trig_events ++
      [EvPulseIn ECHO HIGH 1000;
       EvLcdPrint (TCat (TDouble (measured AVR8 (Pulse 1000))) cm_suffix);
       EvSerialPrintln (measured AVR8 (Pulse 1000))] ++
      blink_events 17 ++
      [EvDelay 200; EvLcdClear] /\
    half_period LED (cycle_events AVR8 (Pulse 1000)) = Some 17.
Proof.
  split; [reflexivity|].
  exact (proj2 (proj2 (proj2 (echo_1000_cycle AVR8 power_on eq_refl)))).
Defined.

(** C4: when no echo arrives the echo timer reports zero, which the sketch
    cannot tell from a pulse of width zero; the distance is zero, the cycle
    completes and leaves the threshold in place, and since 0 < 50 the
    indicator blinks with a half-period of 0 ms. *)
Theorem no_echo_cycle (b : board) (s : state) :
  limit s = 50 ->
  pulseIn_result NoEcho = 0 /\
  loop b NoEcho s = loop b (Pulse 0) s /\
  measured b NoEcho = S754_zero false /\
  exists s',
    loop b NoEcho s = Some (tt, s') /\
    limit s' = 50 /\
    trace s' = trace s ++
      trig_events ++
      [EvPulseIn ECHO HIGH 0;
       EvLcdPrint (TCat (TDouble (S754_zero false)) cm_suffix);
       EvSerialPrintln (S754_zero false)] ++
      blink_events 0 ++
      [EvDelay 200; EvLcdClear].
Proof.
  intros Hl. split; [reflexivity|]. split; [reflexivity|].
  split; [apply measured_of_zero; reflexivity|].
  assert (Hr : echo_ok NoEcho) by (unfold echo_ok; cbn; lia).
  destruct (loop_run b NoEcho s Hr Hl) as (s' & R & L & T & _).
  exists s'. split; [exact R|]. split; [exact L|].
  rewrite T. f_equal. destruct b; vm_compute; reflexivity.
Qed.

Lemma no_echo_cycle_witness :
  limit power_on = 50 /\
  exists s',
    loop AVR8 NoEcho power_on = Some (tt, s') /\
    limit s' = 50 /\
    trace s' = trace power_on ++
      trig_events ++
      [EvPulseIn ECHO HIGH 0;
       EvLcdPrint (TCat (TDouble (S754_zero false)) cm_suffix);
       EvSerialPrintln (S754_zero false)] ++
      blink_events 0 ++
      [EvDelay 200; EvLcdClear].
Proof.
  split; [reflexivity|].
  exact (proj2 (proj2 (proj2 (no_echo_cycle AVR8 power_on eq_refl)))).
Defined.

Section Runs.
Variable b : board.

Lemma cycles_app rs1 rs2 s :
  cycles b (rs1 ++ rs2) s = bind (cycles b rs1) (fun _ => cycles b rs2) s.
Proof.
  revert s. induction rs1 as [|r rs1 IH]; intros s.
  - reflexivity.
  - cbn [app cycles]. unfold bind.
    destruct (loop b r s) as [[[] s1]|]; [|reflexivity].
    rewrite IH. reflexivity.
Qed.

Lemma reachable_limit s : reachable b s -> limit s = 50.
Proof.
  intros (rs & Hrs & R).
  destruct (sketch_run b rs Hrs) as (s' & R' & L & _).
  rewrite R in R'. injection R' as <-. exact L.
Qed.

Lemma reachable_step r s s' :
  reachable b s -> echo_ok r -> loop b r s = Some (tt, s') -> reachable b s'.
Proof.
  intros (rs & Hrs & R) Hr L. exists (rs ++ [r]).
  split; [apply Forall_app; split; [exact Hrs|constructor; [exact Hr|constructor]]|].
  unfold sketch, bind in R. unfold sketch. unfold bind at 1.
  destruct (setup power_on) as [[[] s0]|]; [|discriminate R].
  rewrite cycles_app. unfold bind at 1. rewrite R.
  cbn [cycles]. unfold bind at 1. rewrite L. reflexivity.
Qed.

End Runs.

(** C5: every cycle performs, in this order, the trigger pulse, the echo
    timing, the display of the distance, the telemetry line, the blink when
    the distance is below the threshold, the pause of 200 ms and the
    clearing of the display ([cycle_events]); from every state the sketch
    reaches, the next cycle runs to its end for every reading of the echo
    timer and reaches such a state again, so no state is terminal. *)
Theorem cycle_order_and_progress (b : board) (r : echo) (s : state) :
  reachable b s -> echo_ok r ->
  exists s',
    loop b r s = Some (tt, s') /\
    step b s s' /\
    reachable b s' /\
    trace s' = trace s ++
      [EvWrite TRIG LOW; EvDelay 10; EvWrite TRIG HIGH; EvDelay 10;
       EvWrite TRIG LOW;
       EvPulseIn ECHO HIGH (pulseIn_result r);
       EvLcdPrint (TCat (TDouble (measured b r)) cm_suffix);
       EvSerialPrintln (measured b r)] ++
      (if FP.ltb (measured b r) (FP.of_Z (double_fmt b) 50)
       then [EvWrite LED LOW; EvWrite LED HIGH;
             EvDelay (Qfloor (FP.to_Q (measured b r)));
             EvWrite LED LOW;
             EvDelay (Qfloor (FP.to_Q (measured b r)))]
       else []) ++
      [EvDelay 200; EvLcdClear].
Proof.
  intros Hs Hr.
  destruct (loop_run b r s Hr (reachable_limit b s Hs)) as (s' & R & _ & T & _).
  exists s'. split; [exact R|]. split; [exists r; auto|].
  split; [exact (reachable_step b r s s' Hs Hr R)|].
  rewrite T. reflexivity.
Qed.

Lemma cycle_order_and_progress_witness :
  reachable AVR8
    {| limit := 50; pins := fun _ => LOW; clock_ms := 0;
       trace := [EvLcdBegin 16 1; EvPinMode TRIG OUTPUT; EvPinMode ECHO INPUT;
                 EvSerialBegin 9600] |} /\
  echo_ok (Pulse 6000) /\
  exists s',
    loop AVR8 (Pulse 6000)
      {| limit := 50; pins := fun _ => LOW; clock_ms := 0;
         trace := [EvLcdBegin 16 1; EvPinMode TRIG OUTPUT; EvPinMode ECHO INPUT;
                   EvSerialBegin 9600] |} = Some (tt, s') /\
    reachable AVR8 s'.
Proof.
  assert (Hs : reachable AVR8
    {| limit := 50; pins := fun _ => LOW; clock_ms := 0;
       trace := [EvLcdBegin 16 1; EvPinMode TRIG OUTPUT; EvPinMode ECHO INPUT;
                 EvSerialBegin 9600] |}).
  { exists []. split; [constructor|reflexivity]. }
  assert (Hr : echo_ok (Pulse 6000)) by (unfold echo_ok; cbn; lia).
  split; [exact Hs|]. split; [exact Hr|].
  destruct (cycle_order_and_progress AVR8 (Pulse 6000) _ Hs Hr) as (s' & R & _ & Q & _).
  exists s'. split; [exact R|exact Q].
Defined.

(** C8: the threshold is 50 when the sketch starts and no cycle assigns to
    it: after [setup] and any number of cycles it is still 50, and one
    cycle leaves it as it found it, whatever its value. *)
Theorem limit_never_changes (b : board) (rs : list echo) :
  Forall echo_ok rs ->
  limit power_on = 50 /\
  (exists s', sketch b rs power_on = Some (tt, s') /\ limit s' = 50) /\
  (forall r s s', loop b r s = Some (tt, s') -> limit s' = limit s).
Proof.
  intros Hrs. split; [reflexivity|]. split.
  - destruct (sketch_run b rs Hrs) as (s' & R & L & _). exists s'. auto.
  - intros r s s'. apply loop_keeps_limit.
Qed.

Lemma limit_never_changes_witness :
  Forall echo_ok [Pulse 1000; Pulse 6000; NoEcho] /\
  exists s',
    sketch AVR8 [Pulse 1000; Pulse 6000; NoEcho] power_on = Some (tt, s') /\
    limit s' = 50.
Proof.
  assert (H : Forall echo_ok [Pulse 1000; Pulse 6000; NoEcho]).
  { repeat constructor; unfold echo_ok; cbn; lia. }
  split; [exact H|].
  exact (proj1 (proj2 (limit_never_changes AVR8 _ H))).
Defined.

(** A cycle whose distance is not below the threshold, from any state and
    for any threshold: [loop] completes, none of the events it adds is a
    write to the LED pin, and the LED latch is as it was. *)
Lemma loop_idle_run (b : board) r s d s1 :
  getDistance b r s = Some (d, s1) ->
  FP.ltb d (FP.of_Z (double_fmt b) (limit s)) = false ->
  exists s' evs,
    loop b r s = Some (tt, s') /\
    trace s' = trace s ++ evs /\
    writes_pin LED evs = false /\
    pins s' LED = pins s LED.
Proof.
  intros G B. rewrite loop_decompose. unfold bind at 1. rewrite G.
  rewrite getDistance_run in G. injection G as <- <-.
  unfold after_measure. run_sketch. rewrite B.
  eexists. exists (trig_events ++
     [EvPulseIn ECHO HIGH (pulseIn_result r);
      EvLcdPrint (TCat (TDouble (measured b r)) cm_suffix);
      EvSerialPrintln (measured b r); EvDelay 200; EvLcdClear]).
  split; [reflexivity|]. cbn [limit pins clock_ms trace].
  split; [rewrite <- !app_assoc; reflexivity|].
  split; reflexivity.
Qed.

(** C10: every [blinkLED] that returns leaves the LED line low; a cycle
    whose distance, as [getDistance] returned it, is not below the
    threshold completes without any write to the LED line among the
    effects [loop] adds, and leaves the LED latch as it was; so after
    [setup] and any number of completed cycles the indicator is off. *)
Theorem indicator_off_between_cycles (b : board) (rs : list echo) :
  Forall echo_ok rs ->
  (forall d s s', blinkLED d s = Some (tt, s') -> pins s' LED = LOW) /\
  (forall r s d s1,
     getDistance b r s = Some (d, s1) ->
     FP.ltb d (FP.of_Z (double_fmt b) (limit s)) = false ->
     exists s' evs,
       loop b r s = Some (tt, s') /\
       trace s' = trace s ++ evs /\
       writes_pin LED evs = false /\
       pins s' LED = pins s LED) /\
  (exists s', sketch b rs power_on = Some (tt, s') /\ pins s' LED = LOW).
Proof.
  intros Hrs. split; [|split].
  - intros d s s' R. destruct (FP.trunc d) as [n|] eqn:Hn.
    + destruct (blinkLED_run d n s Hn) as (s1 & R1 & _ & P & _).
      rewrite R in R1. injection R1 as <-. exact P.
    + rewrite (blinkLED_undefined d s Hn) in R. discriminate R.
  - intros r s d s1. apply loop_idle_run.
  - destruct (sketch_run b rs Hrs) as (s' & R & _ & P & _). exists s'. auto.
Qed.

Lemma indicator_off_between_cycles_witness :
  Forall echo_ok [Pulse 1000; Pulse 6000; NoEcho] /\
  (exists s',
     sketch ARM32 [Pulse 1000; Pulse 6000; NoEcho] power_on = Some (tt, s') /\
     pins s' LED = LOW) /\
  (exists s' evs,
     loop ARM32 (Pulse 6000) power_on = Some (tt, s') /\
     trace s' = trace power_on ++ evs /\
     writes_pin LED evs = false).
Proof.
  assert (H : Forall echo_ok [Pulse 1000; Pulse 6000; NoEcho]).
  { repeat constructor; unfold echo_ok; cbn; lia. }
  destruct (indicator_off_between_cycles ARM32 _ H) as (_ & Idle & Off).
  split; [exact H|]. split; [exact Off|].
  assert (B : FP.ltb (measured ARM32 (Pulse 6000))
                     (FP.of_Z (double_fmt ARM32) (limit power_on)) = false).
  { vm_compute. reflexivity. }
  destruct (Idle (Pulse 6000) power_on _ _
              (getDistance_run ARM32 (Pulse 6000) power_on) B)
    as (s' & evs & R & T & W & _).
  exists s', evs. split; [exact R|]. split; [exact T|exact W].
Defined.

(** * Further properties of the sketch

    What follows is read off the code alone: how the conversions treat
    signs and special values, how the two units relate, what a whole
    measurement returns, the threshold and the pause in terms of the raw
    reading of the echo timer, the time a cycle spends waiting, and what
    the pins, the display and the serial line see over a whole run. *)

(** ** Signs and special values *)

Lemma binary_round_aux_opp prec emax s m e l :
  binary_round_aux prec emax (negb s) m e l
  = SFopp (binary_round_aux prec emax s m e l).
Proof.
  unfold binary_round_aux.
  destruct (shr_fexp prec emax m e l) as [mrs' e'].
  destruct (shr_fexp prec emax _ e' loc_Exact) as [mrs'' e''].
  destruct (shr_m mrs'') as [|p|p]; try reflexivity.
  destruct (e'' <=? emax - prec); reflexivity.
Qed.

Lemma mul_opp f x y : FP.mul f (SFopp x) y = SFopp (FP.mul f x y).
Proof.
  unfold FP.mul.
  destruct x as [sx|sx| |sx mx ex], y as [sy|sy| |sy my ey]; cbn [SFopp SFmul];
    try reflexivity;
    try (destruct sx, sy; reflexivity).
  rewrite <- binary_round_aux_opp. destruct sx, sy; reflexivity.
Qed.

Lemma div_opp f x y : FP.div f (SFopp x) y = SFopp (FP.div f x y).
Proof.
  unfold FP.div.
  destruct x as [sx|sx| |sx mx ex], y as [sy|sy| |sy my ey]; cbn [SFopp SFdiv];
    try reflexivity;
    try (destruct sx, sy; reflexivity).
  destruct (SFdiv_core_binary (prec f) (emax f) (Z.pos mx) ex (Z.pos my) ey) as [[mz ez] lz].
  rewrite <- binary_round_aux_opp. destruct sx, sy; reflexivity.
Qed.

Lemma cast_opp f x : FP.cast f (SFopp x) = SFopp (FP.cast f x).
Proof.
  destruct x as [sx|sx| |sx mx ex]; cbn [SFopp FP.cast]; try reflexivity.
  unfold binary_round.
  destruct (shl_align mx ex _) as [mz ez]. apply binary_round_aux_opp.
Qed.

Lemma inf_conversions (b : board) (s : bool) :
  calculateDistanceCM b (S754_infinity s) = S754_infinity s /\
  calculateDistanceFoot b (S754_infinity s) = S754_infinity s /\
  calculateDistanceCM b S754_nan = S754_nan /\
  calculateDistanceFoot b S754_nan = S754_nan.
Proof.
  destruct b, s; vm_compute; repeat split; reflexivity.
Qed.

(** X1: both conversions are odd functions and pass special values
    through: negating the duration negates the distance, bit for bit (so
    a negative zero stays a negative zero), an infinite duration gives the
    infinity of the same sign, and not-a-number gives not-a-number; on
    every board. *)
Theorem conversions_sign_and_specials (b : board) (T : spec_float) (s : bool) :
  calculateDistanceCM b (SFopp T) = SFopp (calculateDistanceCM b T) /\
  calculateDistanceFoot b (SFopp T) = SFopp (calculateDistanceFoot b T) /\
  calculateDistanceCM b (S754_infinity s) = S754_infinity s /\
  calculateDistanceFoot b (S754_infinity s) = S754_infinity s /\
  calculateDistanceCM b S754_nan = S754_nan /\
  calculateDistanceFoot b S754_nan = S754_nan.
Proof.
  split; [|split; [|apply inf_conversions]];
    unfold calculateDistanceCM, calculateDistanceFoot;
    rewrite !mul_opp, !div_opp, !cast_opp; reflexivity.
Qed.

(** ** The two units *)

(** X2: for every duration between 2^-32 and 2^64 microseconds the
    centimetre result and 30.48 times the feet result differ by at most
    2^-20 of the centimetre result, and the feet result is strictly the
    smaller of the two, as exact values and under the floating-point
    comparison. *)

Theorem feet_and_centimeters_agree (b : board) (T : spec_float) :
  posval (double_fmt b) T -> in_range T ->
  (Qabs (FP.to_Q (calculateDistanceCM b T)
         - (3048 # 100) * FP.to_Q (calculateDistanceFoot b T))
     <= FP.to_Q (calculateDistanceCM b T) * (1 # 1048576))%Q /\
  (FP.to_Q (calculateDistanceFoot b T) < FP.to_Q (calculateDistanceCM b T))%Q /\
  FP.ltb (calculateDistanceFoot b T) (calculateDistanceCM b T) = true.
Proof.
  intros HT HR.
  destruct (cm_accuracy b T HT HR) as [P1 E1].
  destruct (foot_accuracy b T HT HR) as [P2 E2].
  apply Qabs_Qle_condition in E1. apply Qabs_Qle_condition in E2.
  destruct HR as [L U].
  set (t := FP.to_Q T) in *.
  set (c := FP.to_Q (calculateDistanceCM b T)) in *.
  set (g := FP.to_Q (calculateDistanceFoot b T)) in *.
  assert (Lt : (g < c)%Q) by lra.
  split; [apply Qabs_Qle_condition; split; lra|].
  split; [exact Lt|].
  apply (ltb_spec float_fmt ltac:(cbn; lia) _ _ P2 P1). exact Lt.
Qed.

Lemma feet_and_centimeters_agree_witness :
  posval (double_fmt ARM32) (FP.of_Z binary64 1000) /\
  in_range (FP.of_Z binary64 1000) /\
  FP.ltb (calculateDistanceFoot ARM32 (FP.of_Z binary64 1000))
         (calculateDistanceCM ARM32 (FP.of_Z binary64 1000)) = true.
Proof.
  assert (HT : posval (double_fmt ARM32) (FP.of_Z binary64 1000)).
  { vm_compute. reflexivity. }
  assert (HR : in_range (FP.of_Z binary64 1000)).
  { split; apply Qle_bool_iff; vm_compute; reflexivity. }
  split; [exact HT|]. split; [exact HR|].
  exact (proj2 (proj2 (feet_and_centimeters_agree ARM32 (FP.of_Z binary64 1000) HT HR))).
Defined.

(** X3: on whole-microsecond durations up to 1,000,000 microseconds the
    feet conversion is strictly increasing: 0 <= T1 < T2 <= 1000000 gives
    calculateDistanceFoot(T1) < calculateDistanceFoot(T2), as exact values
    and under the floating-point comparison. *)
Theorem feet_increasing_on_readings (b : board) (n1 n2 : Z) :
  0 <= n1 < n2 -> n2 <= 1000000 ->
  (FP.to_Q (calculateDistanceFoot b (FP.of_Z (double_fmt b) n1))
   < FP.to_Q (calculateDistanceFoot b (FP.of_Z (double_fmt b) n2)))%Q /\
  FP.ltb (calculateDistanceFoot b (FP.of_Z (double_fmt b) n1))
         (calculateDistanceFoot b (FP.of_Z (double_fmt b) n2)) = true.
Proof.
  intros H12 H2.
  destruct (double_fmt_wide b) as (W1 & W2 & W3).
  assert (Hpow : 2 ^ 24 <= 2 ^ prec (double_fmt b)) by (apply Z.pow_le_mono_r; lia).
  assert (Hsmall : 1000000 < 2 ^ 24) by reflexivity.
  assert (Reading : forall n, 1 <= n <= 1000000 ->
            posval float_fmt (calculateDistanceFoot b (FP.of_Z (double_fmt b) n)) /\
            (Qabs (FP.to_Q (calculateDistanceFoot b (FP.of_Z (double_fmt b) n))
                   - inject_Z n * (343 # 609600))
               <= inject_Z n * (343 # 609600) * (1 # 2097152))%Q).
  { intros n Hn.
    destruct (of_Z_exact (double_fmt b) ltac:(lia) ltac:(lia) n ltac:(lia)) as [P V].
    assert (L : (1 <= inject_Z n)%Q)
      by (change 1%Q with (inject_Z 1); rewrite <- Zle_Qle; lia).
    assert (U : (inject_Z n <= 1000000)%Q)
      by (change 1000000%Q with (inject_Z 1000000); rewrite <- Zle_Qle; lia).
    assert (R : in_range (FP.of_Z (double_fmt b) n)).
    { unfold in_range. rewrite V. lra. }
    destruct (foot_accuracy b _ P R) as [P' E]. rewrite V in E. auto. }
  assert (U2 : (inject_Z n2 <= 1000000)%Q)
    by (change 1000000%Q with (inject_Z 1000000); rewrite <- Zle_Qle; lia).
  destruct (Reading n2 ltac:(lia)) as [P2 E2].
  apply Qabs_Qle_condition in E2.
  destruct (Z.eq_dec n1 0) as [->|N1].
  - assert (Hz : calculateDistanceFoot b (FP.of_Z (double_fmt b) 0) = S754_zero false)
      by (destruct b; vm_compute; reflexivity).
    rewrite Hz.
    assert (L2 : (1 <= inject_Z n2)%Q)
      by (change 1%Q with (inject_Z 1); rewrite <- Zle_Qle; lia).
    split; [cbn [FP.to_Q]; lra|].
    destruct (posval_inv _ _ P2) as (p & e & -> & _). reflexivity.
  - destruct (Reading n1 ltac:(lia)) as [P1 E1].
    apply Qabs_Qle_condition in E1.
    assert (L1 : (1 <= inject_Z n1)%Q)
      by (change 1%Q with (inject_Z 1); rewrite <- Zle_Qle; lia).
    assert (S12 : (inject_Z n1 + 1 <= inject_Z n2)%Q).
    { change 1%Q with (inject_Z 1). rewrite <- inject_Z_plus, <- Zle_Qle. lia. }
    assert (Lt : (FP.to_Q (calculateDistanceFoot b (FP.of_Z (double_fmt b) n1))
                  < FP.to_Q (calculateDistanceFoot b (FP.of_Z (double_fmt b) n2)))%Q) by lra.
    split; [exact Lt|].
    apply (ltb_spec float_fmt ltac:(cbn; lia) _ _ P1 P2). exact Lt.
Qed.

Lemma feet_increasing_on_readings_witness :
  0 <= 999 < 1000 /\ 1000 <= 1000000 /\
  FP.ltb (calculateDistanceFoot ARM32 (FP.of_Z (double_fmt ARM32) 999))
         (calculateDistanceFoot ARM32 (FP.of_Z (double_fmt ARM32) 1000)) = true.
Proof.
  split; [lia|]. split; [lia|].
  exact (proj2 (feet_increasing_on_readings ARM32 999 1000 ltac:(lia) ltac:(lia))).
Defined.

(** ** A whole measurement *)

Section Widen.
Variable b : board.
Let D := double_fmt b.

Lemma widen_exact x :
  posval float_fmt x -> (FP.to_Q x < pow2 127)%Q ->
  posval D (FP.cast D x) /\ (FP.to_Q (FP.cast D x) == FP.to_Q x)%Q.
Proof.
  intros P H. destruct (double_fmt_wide b) as (W1 & W2 & W3). fold D in W1, W2, W3.
  destruct (posval_inv float_fmt x P) as (p & e & -> & B).
  destruct (bounded_canonical float_fmt p e B) as [C _].
  destruct (Zdigits2_bounds (Zpos p) ltac:(lia)) as [Lp _].
  pose proof (Zdigits2_pos (Zpos p) ltac:(lia)) as Dp.
  set (d := Zdigits2 (Zpos p)) in *.
  assert (Hd : d + e <= 127).
  { assert (d - 1 + e < 127); [|lia]. apply pow2_lt_inv.
    eapply Qle_lt_trans; [|exact H]. cbn [FP.to_Q].
    rewrite pow2_add, <- (pow2_inject (d - 1)) by lia.
    apply Qmult_le_compat_r; [rewrite <- Zle_Qle; exact Lp|].
    apply Qlt_le_weak, pow2_pos. }
  apply (cast_exact D ltac:(lia) W3 p e).
  - fold d. unfold fexp, emin in *. cbn [prec emax float_fmt binary32] in C. lia.
  - fold d. lia.
Qed.

Lemma measured_accuracy r :
  1 <= pulseIn_result r < 2 ^ 32 ->
  nonneg D (measured b r) /\
  (FP.to_Q (measured b r)
   == FP.to_Q (calculateDistanceCM b (FP.of_Z D (pulseIn_result r))))%Q /\
  (Qabs (FP.to_Q (measured b r) - inject_Z (pulseIn_result r) * (343 # 20000))
     <= inject_Z (pulseIn_result r) * (343 # 20000) * (1 # 2097152))%Q.
Proof.
  intros Hn.
  destruct (reading_to_double b _ Hn) as (P & R & B).
  destruct (cm_accuracy b _ P R) as (P' & E). fold D in P, R, B, P', E.
  apply Qabs_Qle_condition in E.
  assert (L : (1 <= inject_Z (pulseIn_result r))%Q)
    by (change 1%Q with (inject_Z 1); rewrite <- Zle_Qle; lia).
  assert (U : (inject_Z (pulseIn_result r) < 4294967296)%Q)
    by (change 4294967296%Q with (inject_Z (2 ^ 32)); rewrite <- Zlt_Qlt; lia).
  set (t := FP.to_Q (FP.of_Z D (pulseIn_result r))) in *.
  set (v := FP.to_Q (calculateDistanceCM b (FP.of_Z D (pulseIn_result r)))) in *.
  destruct (widen_exact _ P') as [PW EW].
  { fold v. change (pow2 127) with 170141183460469231731687303715884105728%Q. lra. }
  fold v in EW. unfold measured. fold D.
  split; [|split; [exact EW|]].
  - unfold nonneg. unfold posval in PW.
    destruct (FP.cast D _) as [| | |[]]; try discriminate PW; exact PW.
  - rewrite EW. apply Qabs_Qle_condition. split; lra.
Qed.

End Widen.

(** X4: for a non-zero 32-bit reading n of the echo timer, [getDistance]
    returns, in every state, a non-negative well-formed [double] whose
    value is exactly the [float] that [calculateDistanceCM] computed (the
    widening to the return type loses nothing) and lies within a relative
    error of 2^-21 of n * 0.01715; the call leaves the threshold and every
    pin but the trigger as they were, leaves the trigger low, and waits
    20 ms. *)
Theorem getDistance_accuracy (b : board) (r : echo) (s : state) :
  1 <= pulseIn_result r < 2 ^ 32 ->
  exists d s',
    getDistance b r s = Some (d, s') /\
    nonneg (double_fmt b) d /\
    (FP.to_Q d ==
       FP.to_Q (calculateDistanceCM b (FP.of_Z (double_fmt b) (pulseIn_result r))))%Q /\
    (Qabs (FP.to_Q d - inject_Z (pulseIn_result r) * (343 # 20000))
       <= inject_Z (pulseIn_result r) * (343 # 20000) * (1 # 2097152))%Q /\
    limit s' = limit s /\
    pins s' TRIG = LOW /\
    (forall p, p <> TRIG -> pins s' p = pins s p) /\
    clock_ms s' = clock_ms s + 20.
Proof.
  intros Hn. rewrite getDistance_run.
  destruct (measured_accuracy b r Hn) as (N & E & A).
  eexists _, _. split; [reflexivity|]. cbn [limit pins clock_ms trace].
  split; [exact N|]. split; [exact E|]. split; [exact A|].
  split; [reflexivity|]. split; [reflexivity|]. split; [|lia].
  intros p Hp. unfold set_pin. destruct (Z.eqb_spec p TRIG); [contradiction|reflexivity].
Qed.

Lemma getDistance_accuracy_witness :
  1 <= pulseIn_result (Pulse 1000) < 2 ^ 32 /\
  exists d s',
    getDistance AVR8 (Pulse 1000) power_on = Some (d, s') /\
    nonneg (double_fmt AVR8) d /\
    (Qabs (FP.to_Q d - inject_Z 1000 * (343 # 20000))
       <= inject_Z 1000 * (343 # 20000) * (1 # 2097152))%Q.
Proof.
  assert (H : 1 <= pulseIn_result (Pulse 1000) < 2 ^ 32) by (cbn; lia).
  split; [exact H|].
  destruct (getDistance_accuracy AVR8 (Pulse 1000) power_on H)
    as (d & s' & R & N & _ & A & _).
  exists d, s'. split; [exact R|]. split; [exact N|exact A].
Defined.

(** ** The threshold and the pause in microseconds *)

Section ThresholdReading.
Variable b : board.
Let D := double_fmt b.

Lemma measured_nonneg r : echo_ok r -> nonneg D (measured b r).
Proof.
  intros Hr. unfold echo_ok in Hr.
  destruct (Z.eq_dec (pulseIn_result r) 0) as [Hz|Hnz].
  - rewrite (measured_of_zero b r Hz). reflexivity.
  - apply (measured_accuracy b r). lia.
Qed.

Lemma blinks_iff_reading r :
  echo_ok r ->
  (FP.ltb (measured b r) (FP.of_Z D 50) = true <-> pulseIn_result r <= 2915).
Proof.
  intros Hr. pose proof (ltb_threshold b _ (measured_nonneg r Hr)) as TH.
  fold D in TH. rewrite TH. clear TH.
  unfold echo_ok in Hr.
  destruct (Z.eq_dec (pulseIn_result r) 0) as [Hz|Hnz].
  - rewrite (measured_of_zero b r Hz), Hz. cbn [FP.to_Q]. split; [lia|reflexivity].
  - destruct (measured_accuracy b r ltac:(lia)) as (_ & _ & E).
    apply Qabs_Qle_condition in E.
    set (n := pulseIn_result r) in *. set (v := FP.to_Q (measured b r)) in *.
    assert (L : (1 <= inject_Z n)%Q)
      by (change 1%Q with (inject_Z 1); rewrite <- Zle_Qle; lia).
    split.
    + intros Hv. destruct (Z.le_gt_cases n 2915) as [C|C]; [exact C|exfalso].
      assert (G : (2916 <= inject_Z n)%Q)
        by (change 2916%Q with (inject_Z 2916); rewrite <- Zle_Qle; lia).
      lra.
    + intros C.
      assert (G : (inject_Z n <= 2915)%Q)
        by (change 2915%Q with (inject_Z 2915); rewrite <- Zle_Qle; lia).
      lra.
Qed.

(** Below the threshold the pause is the whole part of 0.01715 * n. *)
Lemma pause_of_reading r :
  0 <= pulseIn_result r <= 2915 ->
  Qfloor (FP.to_Q (measured b r)) = 343 * pulseIn_result r / 20000.
Proof.
  intros Hn.
  destruct (Z.eq_dec (pulseIn_result r) 0) as [Hz|Hnz].
  - rewrite (measured_of_zero b r Hz), Hz. reflexivity.
  - destruct (measured_accuracy b r ltac:(lia)) as (_ & _ & E).
    apply Qabs_Qle_condition in E.
    set (n := pulseIn_result r) in *. set (v := FP.to_Q (measured b r)) in *.
    pose proof (Z.div_mod (343 * n) 20000 ltac:(lia)) as DM.
    pose proof (Z.mod_pos_bound (343 * n) 20000 ltac:(lia)) as MB.
    set (q := 343 * n / 20000) in *. set (m := (343 * n) mod 20000) in *.
    assert (Hm : 1 <= m).
    { destruct (Z.eq_dec m 0) as [M0|]; [exfalso|lia].
      assert (Dv : (20000 | 343 * n)) by (exists q; lia).
      apply Z.gauss in Dv; [|reflexivity].
      destruct Dv as [k Hk]. lia. }
    assert (EQ : (inject_Z n * (343 # 20000) == inject_Z q + inject_Z m * (1 # 20000))%Q).
    { setoid_replace (inject_Z n * (343 # 20000))%Q
        with (inject_Z (343 * n) * (1 # 20000))%Q
        by (rewrite inject_Z_mult; change (inject_Z 343) with 343%Q; field).
      rewrite DM, inject_Z_plus, inject_Z_mult. change (inject_Z 20000) with 20000%Q. field. }
    assert (L1 : (1 <= inject_Z m)%Q)
      by (change 1%Q with (inject_Z 1); rewrite <- Zle_Qle; lia).
    assert (U1 : (inject_Z m <= 19999)%Q)
      by (change 19999%Q with (inject_Z 19999); rewrite <- Zle_Qle; lia).
    assert (Ln : (1 <= inject_Z n)%Q)
      by (change 1%Q with (inject_Z 1); rewrite <- Zle_Qle; lia).
    assert (Un : (inject_Z n <= 2915)%Q)
      by (change 2915%Q with (inject_Z 2915); rewrite <- Zle_Qle; lia).
    symmetry. apply Z.le_antisymm.
    + rewrite <- (Qfloor_Z q). apply Qfloor_resp_le. lra.
    + assert (Qfloor v < q + 1); [|lia].
      apply Qfloor_below. rewrite inject_Z_plus. change (inject_Z 1) with 1%Q. lra.
Qed.

End ThresholdReading.

Section Full.
Variable b : board.
Let D := double_fmt b.

Lemma loop_run_full r s :
  echo_ok r -> limit s = 50 ->
  exists s',
    loop b r s = Some (tt, s') /\
    limit s' = 50 /\
    trace s' = trace s ++ cycle_events b r /\
    clock_ms s' = clock_ms s + 220 +
      (if FP.ltb (measured b r) (FP.of_Z D 50)
       then 2 * Qfloor (FP.to_Q (measured b r)) else 0) /\
    pins s' TRIG = LOW /\
    pins s' LED = (if FP.ltb (measured b r) (FP.of_Z D 50) then LOW else pins s LED).
Proof.
  intros Hr Hl. rewrite loop_decompose. unfold bind at 1.
  rewrite getDistance_run. unfold after_measure. run_sketch. rewrite Hl. fold D.
  unfold cycle_events. fold D.
  destruct (FP.ltb (measured b r) (FP.of_Z D 50)) eqn:B.
  - destruct (measured_trunc b r Hr B) as (Hn & _).
    match goal with
    | |- context [blinkLED (measured b r) ?s0] =>
        destruct (blinkLED_run (measured b r) _ s0 Hn)
          as (s1 & R1 & L1 & P1 & F1 & C1 & T1);
        rewrite R1
    end.
    cbn [limit pins clock_ms trace] in *.
    eexists. split; [reflexivity|]. cbn [limit pins clock_ms trace].
    split; [congruence|]. split; [rewrite T1, <- !app_assoc; reflexivity|].
    split; [lia|]. split; [rewrite F1 by discriminate; reflexivity|].
    exact P1.
  - eexists. split; [reflexivity|]. cbn [limit pins clock_ms trace].
    split; [reflexivity|]. split; [rewrite <- !app_assoc; reflexivity|].
    split; [lia|]. split; reflexivity.
Qed.

Lemma cycles_run_full rs : forall s,
  Forall echo_ok rs -> limit s = 50 ->
  pins s TRIG = LOW -> pins s LED = LOW ->
  exists s',
    cycles b rs s = Some (tt, s') /\
    limit s' = 50 /\
    pins s' TRIG = LOW /\
    pins s' LED = LOW /\
    trace s' = trace s ++ List.concat (map (cycle_events b) rs).
Proof.
  induction rs as [|r rs IH]; intros s Hrs Hl HT HL.
  - exists s. cbn. rewrite app_nil_r. auto.
  - inversion Hrs as [|? ? Hr Hrs']; subst.
    destruct (loop_run_full r s Hr Hl) as (s1 & R1 & L1 & T1 & _ & PT & PL).
    assert (PL1 : pins s1 LED = LOW).
    { rewrite PL. destruct (FP.ltb _ _); [reflexivity|exact HL]. }
    destruct (IH s1 Hrs' L1 PT PL1) as (s2 & R2 & L2 & PT2 & PL2 & T2).
    exists s2. cbn [cycles]. unfold bind at 1. rewrite R1.
    split; [exact R2|]. split; [exact L2|]. split; [exact PT2|].
    split; [exact PL2|].
    rewrite T2, T1. cbn [map List.concat]. rewrite <- app_assoc. reflexivity.
Qed.

Lemma sketch_run_full rs :
  Forall echo_ok rs ->
  exists s',
    sketch b rs power_on = Some (tt, s') /\
    (pins s' TRIG = LOW /\ pins s' LED = LOW) /\
    trace s' = [EvLcdBegin 16 1; EvPinMode TRIG OUTPUT; EvPinMode ECHO INPUT;
                EvSerialBegin 9600] ++ List.concat (map (cycle_events b) rs).
Proof.
  intros Hrs. unfold sketch, bind at 1. rewrite setup_run.
  match goal with
  | |- context [cycles b rs ?s0] =>
      destruct (cycles_run_full rs s0 Hrs eq_refl eq_refl eq_refl)
        as (s' & R & _ & PT & PL & T)
  end.
  exists s'. auto.
Qed.

Lemma cycle_telemetry r : telemetry (cycle_events b r) = [measured b r].
Proof.
  unfold cycle_events. destruct (FP.ltb _ _); reflexivity.
Qed.

Lemma cycle_displayed r :
  displayed (cycle_events b r) = [TCat (TDouble (measured b r)) cm_suffix].
Proof.
  unfold cycle_events. destruct (FP.ltb _ _); reflexivity.
Qed.

Lemma cycle_pinMode_calls r : pinMode_calls (cycle_events b r) = [].
Proof.
  unfold cycle_events. destruct (FP.ltb _ _); reflexivity.
Qed.

Lemma cycle_writes_trigger_and_led r :
  Forall (fun w => fst w = TRIG \/ fst w = LED) (digitalWrite_calls (cycle_events b r)).
Proof.
  unfold cycle_events, trig_events, blink_events, digitalWrite_calls.
  destruct (FP.ltb _ _); cbn [flat_map app]; repeat (constructor; [cbn [fst]; auto|]);
    constructor.
Qed.

Lemma cycle_lcd_content r shown :
  lcd_content shown (cycle_events b r) = [] /\
  lcd_content shown (removelast (cycle_events b r))
    = shown ++ [TCat (TDouble (measured b r)) cm_suffix].
Proof.
  unfold cycle_events. destruct (FP.ltb _ _); split; reflexivity.
Qed.

Lemma lcd_content_app tr1 : forall shown tr2,
  lcd_content shown (tr1 ++ tr2) = lcd_content (lcd_content shown tr1) tr2.
Proof.
  induction tr1 as [|e tr1 IH]; intros shown tr2; [reflexivity|].
  destruct e; cbn [app lcd_content]; apply IH.
Qed.

Lemma flat_map_concat {A B} (f : A -> list B) (ls : list (list A)) :
  flat_map f (List.concat ls) = List.concat (map (flat_map f) ls).
Proof.
  induction ls as [|l ls IH]; [reflexivity|].
  cbn [List.concat map]. rewrite flat_map_app, IH. reflexivity.
Qed.

End Full.

Section CycleFacts.
Variable b : board.
Let D := double_fmt b.

Lemma cycle_writes_LED r :
  writes_pin LED (cycle_events b r) = FP.ltb (measured b r) (FP.of_Z D 50).
Proof.
  unfold cycle_events. fold D. destruct (FP.ltb _ _); reflexivity.
Qed.

Lemma cycle_half_period r :
  FP.ltb (measured b r) (FP.of_Z D 50) = true ->
  half_period LED (cycle_events b r) = Some (Qfloor (FP.to_Q (measured b r))) /\
  half_period TRIG (cycle_events b r) = Some 10.
Proof.
  intros B. unfold cycle_events. fold D. rewrite B. split; reflexivity.
Qed.

Lemma cycle_trig_period r : half_period TRIG (cycle_events b r) = Some 10.
Proof.
  unfold cycle_events. destruct (FP.ltb _ _); reflexivity.
Qed.

Lemma pause_bounds n : 0 <= n <= 2915 -> 0 <= 343 * n / 20000 <= 49.
Proof.
  intros H. split; [apply Z.div_pos; lia|].
  apply Z.lt_succ_r. apply Z.div_lt_upper_bound; lia.
Qed.

End CycleFacts.

(** X5: with the threshold at 50, a cycle writes to the LED pin exactly
    when the reading of the echo timer is at most 2915 microseconds, on
    every board and for every 32-bit reading, a timeout included. *)
Theorem blink_iff_reading_at_most_2915 (b : board) (r : echo) (s : state) :
  echo_ok r -> limit s = 50 ->
  exists s' evs,
    loop b r s = Some (tt, s') /\
    trace s' = trace s ++ evs /\
    (writes_pin LED evs = true <-> pulseIn_result r <= 2915).
Proof.
  intros Hr Hl.
  destruct (loop_run_full b r s Hr Hl) as (s' & R & _ & T & _).
  exists s', (cycle_events b r). split; [exact R|]. split; [exact T|].
  rewrite cycle_writes_LED. apply blinks_iff_reading. exact Hr.
Qed.

Lemma blink_iff_reading_at_most_2915_witness :
  echo_ok (Pulse 2916) /\ limit power_on = 50 /\
  exists s' evs,
    loop ARM32 (Pulse 2916) power_on = Some (tt, s') /\
    trace s' = trace power_on ++ evs /\
    (writes_pin LED evs = true <-> pulseIn_result (Pulse 2916) <= 2915).
Proof.
  assert (H : echo_ok (Pulse 2916)) by (unfold echo_ok; cbn; lia).
  split; [exact H|]. split; [reflexivity|].
  exact (blink_iff_reading_at_most_2915 ARM32 (Pulse 2916) power_on H eq_refl).
Defined.

(** X6: for a reading n of at most 2915 microseconds the pause that
    follows the LED going high is floor(343 * n / 20000) milliseconds,
    the same on every board, and never more than 49 ms. *)
Theorem pause_is_scaled_reading (b : board) (r : echo) (s : state) :
  0 <= pulseIn_result r <= 2915 -> limit s = 50 ->
  exists s' evs,
    loop b r s = Some (tt, s') /\
    trace s' = trace s ++ evs /\
    half_period LED evs = Some (343 * pulseIn_result r / 20000) /\
    0 <= 343 * pulseIn_result r / 20000 <= 49.
Proof.
  intros Hn Hl.
  assert (Hr : echo_ok r) by (unfold echo_ok; lia).
  destruct (loop_run_full b r s Hr Hl) as (s' & R & _ & T & _).
  exists s', (cycle_events b r). split; [exact R|]. split; [exact T|].
  split; [|apply pause_bounds; exact Hn].
  assert (B : FP.ltb (measured b r) (FP.of_Z (double_fmt b) 50) = true)
    by (apply blinks_iff_reading; [exact Hr|lia]).
  rewrite (proj1 (cycle_half_period b r B)), (pause_of_reading b r Hn). reflexivity.
Qed.

Lemma pause_is_scaled_reading_witness :
  0 <= pulseIn_result (Pulse 2000) <= 2915 /\ limit power_on = 50 /\
  exists s' evs,
    loop AVR8 (Pulse 2000) power_on = Some (tt, s') /\
    trace s' = trace power_on ++ evs /\
    half_period LED evs = Some (343 * pulseIn_result (Pulse 2000) / 20000).
Proof.
  assert (H : 0 <= pulseIn_result (Pulse 2000) <= 2915) by (cbn; lia).
  split; [exact H|]. split; [reflexivity|].
  destruct (pause_is_scaled_reading AVR8 (Pulse 2000) power_on H eq_refl)
    as (s' & evs & R & T & P & _).
  exists s', evs. auto.
Defined.

(** ** Timing of a cycle *)

(** X7: the time one cycle spends in [delay] is 220 ms plus, when the
    reading n is at most 2915 microseconds, 2 * floor(343 * n / 20000) ms;
    it is always between 220 and 318 ms. *)

Theorem cycle_duration (b : board) (r : echo) (s : state) :
  echo_ok r -> limit s = 50 ->
  exists s',
    loop b r s = Some (tt, s') /\
    clock_ms s' - clock_ms s =
      220 + (if pulseIn_result r <=? 2915
             then 2 * (343 * pulseIn_result r / 20000) else 0) /\
    220 <= clock_ms s' - clock_ms s <= 318.
Proof.
  intros Hr Hl.
  destruct (loop_run_full b r s Hr Hl) as (s' & R & _ & _ & C & _).
  exists s'. split; [exact R|].
  pose proof (blinks_iff_reading b r Hr) as B.
  destruct (Z.leb_spec (pulseIn_result r) 2915) as [Le|Gt].
  - rewrite (proj2 B Le) in C. unfold echo_ok in Hr.
    rewrite (pause_of_reading b r ltac:(lia)) in C.
    pose proof (pause_bounds (pulseIn_result r) ltac:(lia)). lia.
  - destruct (FP.ltb (measured b r) (FP.of_Z (double_fmt b) 50)).
    + pose proof (proj1 B eq_refl). lia.
    + lia.
Qed.

Lemma cycle_duration_witness :
  echo_ok (Pulse 1000) /\ limit power_on = 50 /\
  exists s',
    loop AVR8 (Pulse 1000) power_on = Some (tt, s') /\
    clock_ms s' - clock_ms power_on = 254.
Proof.
  assert (H : echo_ok (Pulse 1000)) by (unfold echo_ok; cbn; lia).
  split; [exact H|]. split; [reflexivity|].
  destruct (cycle_duration AVR8 (Pulse 1000) power_on H eq_refl) as (s' & R & C & _).
  exists s'. split; [exact R|exact C].
Defined.

(** X8: every cycle starts with the same five effects on the trigger
    pin (low, 10 ms, high, 10 ms, low), so the trigger pulse is 10 ms wide
    whatever the reading and the board, and the echo timer is read
    immediately after the trigger went low. *)
Theorem trigger_pulse_is_10_ms (b : board) (r : echo) (s : state) :
  echo_ok r -> limit s = 50 ->
  exists s' evs,
    loop b r s = Some (tt, s') /\
    trace s' = trace s ++ evs /\
    half_period TRIG evs = Some 10 /\
    firstn 5 evs = [EvWrite TRIG LOW; EvDelay 10; EvWrite TRIG HIGH; EvDelay 10;
                    EvWrite TRIG LOW] /\
    nth_error evs 5 = Some (EvPulseIn ECHO HIGH (pulseIn_result r)).
Proof.
  intros Hr Hl.
  destruct (loop_run_full b r s Hr Hl) as (s' & R & _ & T & _).
  exists s', (cycle_events b r). split; [exact R|]. split; [exact T|].
  split; [apply cycle_trig_period|]. split; reflexivity.
Qed.

Lemma trigger_pulse_is_10_ms_witness :
  echo_ok NoEcho /\ limit power_on = 50 /\
  exists s' evs,
    loop ARM32 NoEcho power_on = Some (tt, s') /\
    trace s' = trace power_on ++ evs /\
    half_period TRIG evs = Some 10.
Proof.
  assert (H : echo_ok NoEcho) by (unfold echo_ok; cbn; lia).
  split; [exact H|]. split; [reflexivity|].
  destruct (trigger_pulse_is_10_ms ARM32 NoEcho power_on H eq_refl)
    as (s' & evs & R & T & P & _).
  exists s', evs. auto.
Defined.

(** ** Whole runs *)

(** X9: over a whole run the sketch's own [digitalWrite] calls address
    only the trigger and the LED pin, and after [setup] and any number of
    cycles from power-on both of these lines are low.  (The lines of the
    display are driven inside the display library and are not part of
    this statement.) *)
Theorem sketch_writes_only_trigger_and_led (b : board) (rs : list echo) :
  Forall echo_ok rs ->
  exists s',
    sketch b rs power_on = Some (tt, s') /\
    Forall (fun w => fst w = TRIG \/ fst w = LED) (digitalWrite_calls (trace s')) /\
    pins s' TRIG = LOW /\
    pins s' LED = LOW.
Proof.
  intros Hrs. destruct (sketch_run_full b rs Hrs) as (s' & R & [PT PL] & T).
  exists s'. split; [exact R|]. split; [|split; [exact PT|exact PL]].
  rewrite T. unfold digitalWrite_calls. rewrite flat_map_app. cbn [flat_map app].
  rewrite flat_map_concat, map_map. apply Forall_concat, Forall_map.
  apply Forall_forall. intros r _. apply cycle_writes_trigger_and_led.
Qed.

Lemma sketch_writes_only_trigger_and_led_witness :
  Forall echo_ok [Pulse 1000; Pulse 6000; NoEcho] /\
  exists s',
    sketch ARM32 [Pulse 1000; Pulse 6000; NoEcho] power_on = Some (tt, s') /\
    Forall (fun w => fst w = TRIG \/ fst w = LED) (digitalWrite_calls (trace s')) /\
    pins s' TRIG = LOW.
Proof.
  assert (H : Forall echo_ok [Pulse 1000; Pulse 6000; NoEcho]).
  { repeat constructor; unfold echo_ok; cbn; lia. }
  split; [exact H|].
  destruct (sketch_writes_only_trigger_and_led ARM32 _ H) as (s' & R & W & P & _).
  exists s'. split; [exact R|]. split; [exact W|exact P].
Defined.

(** X10: over a whole run the sketch itself calls [pinMode] exactly
    twice, both times in [setup]: the trigger as output, then the echo as
    input.  No cycle calls [pinMode], and the sketch never calls it for
    the LED pin.  (The modes the display library sets for its own lines
    are not part of this statement.) *)
Theorem sketch_calls_pinMode_twice (b : board) (rs : list echo) :
  Forall echo_ok rs ->
  exists s',
    sketch b rs power_on = Some (tt, s') /\
    pinMode_calls (trace s') = [(TRIG, OUTPUT); (ECHO, INPUT)] /\
    ~ In LED (map fst (pinMode_calls (trace s'))).
Proof.
  intros Hrs. destruct (sketch_run_full b rs Hrs) as (s' & R & _ & T).
  exists s'. split; [exact R|].
  assert (E : pinMode_calls (trace s') = [(TRIG, OUTPUT); (ECHO, INPUT)]).
  { rewrite T. unfold pinMode_calls. rewrite flat_map_app. cbn [flat_map app].
    rewrite flat_map_concat, map_map.
    replace (List.concat _) with (@nil (Z * pin_mode)); [reflexivity|].
    symmetry. clear. induction rs as [|r rs' IH]; [reflexivity|].
    cbn [map List.concat]. fold (pinMode_calls (cycle_events b r)).
    rewrite cycle_pinMode_calls. exact IH. }
  split; [exact E|]. rewrite E. cbn. unfold TRIG, ECHO, LED. lia.
Qed.

Lemma sketch_calls_pinMode_twice_witness :
  Forall echo_ok [Pulse 1000; NoEcho] /\
  exists s',
    sketch AVR8 [Pulse 1000; NoEcho] power_on = Some (tt, s') /\
    pinMode_calls (trace s') = [(TRIG, OUTPUT); (ECHO, INPUT)].
Proof.
  assert (H : Forall echo_ok [Pulse 1000; NoEcho]).
  { repeat constructor; unfold echo_ok; cbn; lia. }
  split; [exact H|].
  destruct (sketch_calls_pinMode_twice AVR8 _ H) as (s' & R & P & _).
  exists s'. split; [exact R|exact P].
Defined.

(** X11: the serial line receives one distance per cycle, in order, the
    one measured for that cycle's reading; the display is sent the same
    distances in the same order, each followed by the suffix cm. *)
Theorem telemetry_matches_display (b : board) (rs : list echo) :
  Forall echo_ok rs ->
  exists s',
    sketch b rs power_on = Some (tt, s') /\
    telemetry (trace s') = map (measured b) rs /\
    displayed (trace s') = map (fun d => TCat (TDouble d) cm_suffix) (telemetry (trace s')).
Proof.
  intros Hrs. destruct (sketch_run_full b rs Hrs) as (s' & R & _ & T).
  exists s'. split; [exact R|].
  assert (E : telemetry (trace s') = map (measured b) rs).
  { rewrite T. unfold telemetry. rewrite flat_map_app. cbn [flat_map app].
    rewrite flat_map_concat, map_map. clear.
    induction rs as [|r rs' IH]; [reflexivity|].
    cbn [map List.concat]. fold (telemetry (cycle_events b r)).
    rewrite cycle_telemetry, IH. reflexivity. }
  split; [exact E|]. rewrite E, T. unfold displayed.
  rewrite flat_map_app. cbn [flat_map app].
  rewrite flat_map_concat, !map_map. clear.
  induction rs as [|r rs' IH]; [reflexivity|].
  cbn [map List.concat]. fold (displayed (cycle_events b r)).
  rewrite cycle_displayed, IH. reflexivity.
Qed.

Lemma telemetry_matches_display_witness :
  Forall echo_ok [Pulse 1000; NoEcho] /\
  exists s',
    sketch AVR8 [Pulse 1000; NoEcho] power_on = Some (tt, s') /\
    telemetry (trace s') = map (measured AVR8) [Pulse 1000; NoEcho].
Proof.
  assert (H : Forall echo_ok [Pulse 1000; NoEcho]).
  { repeat constructor; unfold echo_ok; cbn; lia. }
  split; [exact H|].
  destruct (telemetry_matches_display AVR8 _ H) as (s' & R & P & _).
  exists s'. split; [exact R|exact P].
Defined.

Lemma cycles_lcd_content (b : board) (rs : list echo) :
  lcd_content [] (List.concat (map (cycle_events b) rs)) = [].
Proof.
  induction rs as [|r rs' IH]; [reflexivity|].
  cbn [map List.concat]. rewrite lcd_content_app.
  rewrite (proj1 (cycle_lcd_content b r [])). exact IH.
Qed.

(** X12: the display never accumulates text over cycles: just before the
    clear that ends a cycle it shows that cycle's distance and nothing
    from earlier cycles, and after the clear it is empty. *)
Theorem display_shows_latest_only (b : board) (rs : list echo) (r : echo) :
  Forall echo_ok rs -> echo_ok r ->
  exists s',
    sketch b (rs ++ [r]) power_on = Some (tt, s') /\
    lcd_content [] (trace s') = [] /\
    lcd_content [] (removelast (trace s'))
      = [TCat (TDouble (measured b r)) cm_suffix].
Proof.
  intros Hrs Hr.
  assert (H : Forall echo_ok (rs ++ [r])).
  { apply Forall_app. split; [exact Hrs|]. constructor; [exact Hr|constructor]. }
  destruct (sketch_run_full b _ H) as (s' & R & _ & T).
  exists s'. split; [exact R|]. rewrite T.
  rewrite map_app, concat_app. cbn [map List.concat]. rewrite app_nil_r.
  assert (NE : cycle_events b r <> []).
  { unfold cycle_events, trig_events. discriminate. }
  rewrite !app_assoc. rewrite removelast_app by exact NE.
  rewrite <- !app_assoc. rewrite !lcd_content_app.
  cbn [lcd_content]. rewrite cycles_lcd_content.
  split; apply cycle_lcd_content.
Qed.

Lemma display_shows_latest_only_witness :
  Forall echo_ok [Pulse 1000; NoEcho] /\ echo_ok (Pulse 6000) /\
  exists s',
    sketch AVR8 ([Pulse 1000; NoEcho] ++ [Pulse 6000]) power_on = Some (tt, s') /\
    lcd_content [] (removelast (trace s'))
      = [TCat (TDouble (measured AVR8 (Pulse 6000))) cm_suffix].
Proof.
  assert (H : Forall echo_ok [Pulse 1000; NoEcho]).
  { repeat constructor; unfold echo_ok; cbn; lia. }
  assert (Hr : echo_ok (Pulse 6000)) by (unfold echo_ok; cbn; lia).
  split; [exact H|]. split; [exact Hr|].
  destruct (display_shows_latest_only AVR8 _ _ H Hr) as (s' & R & _ & P).
  exists s'. split; [exact R|exact P].
Defined.
